(** * HTML page-break splitter: a shallow embedding of
      [html_parser/src/html_regex_page_splitter.py]

    The Python module splits an HTML text at elements whose inline style asks
    for a page break, writes the chunks to a JSON record and concatenates them
    back.  This development embeds

    - the regular expressions of [HTMLPageBreakSplitter.__init__] and of
      [split_html_by_regex] as syntax trees run by a backtracking matcher
      with the priorities of Python's [re] (greedy and lazy repetition,
      ordered alternation, leftmost match, non-overlapping [finditer]);
    - [split_html_by_regex], with [IndexError] made explicit;
    - the concatenation loop of [reconstruct_file];
    - [process_file] over an explicit file system with a trace of accesses.

    A Python [str] is a sequence of code points: texts are lists of [N].
    Offsets and page numbers are non-negative Python integers: [nat]. *)

From Stdlib Require Import String Ascii NArith Arith Bool Lia List Sorted
  Permutation.
Import ListNotations.

Set Implicit Arguments.

(** ** Texts *)

Definition char := N.
Definition text := list char.

(** A text written as an ASCII literal. *)
Definition str (s : string) : text := map N_of_ascii (list_ascii_of_string s).

(** [s[a:b]] and [s[a:]] for offsets [0 <= a], [0 <= b]: Python clips both
    ends to the length and gives the empty text when [b <= a]. *)
Definition slice (s : text) (a b : nat) : text := firstn (b - a) (skipn a s).
Definition slice_from (s : text) (a : nat) : text := skipn a s.

(** ** Exceptions *)

Inductive exn :=
| IndexError
| FileNotFoundError (msg : text)
| ValueError (msg : text).

Inductive result (A : Type) :=
| Ok (a : A)
| Raise (e : exn).

Arguments Ok {A} a.
Arguments Raise {A} e.

Definition bind {A B} (m : result A) (f : A -> result B) : result B :=
  match m with
  | Ok a => f a
  | Raise e => Raise e
  end.

Notation "x <- m ;; k" := (bind m (fun x => k))
  (at level 61, m at next level, right associativity).
Notation "' p <- m ;; k" := (bind m (fun x => let 'p := x in k))
  (at level 61, p pattern, m at next level, right associativity).

(** ** Regular expressions, as Python's [re] runs them *)

Module Re.

(** One-character items.  All the patterns of the module are compiled with
    [re.IGNORECASE]; [re.DOTALL] makes [.] match every character. *)
Inductive cset :=
| CLit (c : char)          (** a literal character, ignoring case *)
| CSpace                   (** [\s] *)
| CIn (cs : list char)     (** [[...]] *)
| CNotIn (cs : list char)  (** [[^...]] *)
| CAny.                    (** [.] under DOTALL *)

Inductive regex :=
| Eps
| One (a : cset)
| Star (a : cset)          (** [a*], greedy *)
| LazyStar (a : cset)      (** [a*?] *)
| Cat (r1 r2 : regex)
| Alt (r1 r2 : regex).     (** [r1|r2], [r1] tried first *)

Definition mem (x : char) (cs : list char) : bool := existsb (N.eqb x) cs.

(** Case folding of the characters that can equal an ASCII letter when case
    is ignored: the ASCII capitals, and the four letters the [re]
    documentation lists (U+0130, U+0131, U+017F, U+212A). *)
Definition fold_case (x : char) : char :=
  if (65 <=? x)%N && (x <=? 90)%N then (x + 32)%N
  else if (x =? 304)%N || (x =? 305)%N then 105%N
  else if (x =? 383)%N then 115%N
  else if (x =? 8490)%N then 107%N
  else x.

(** [str.isspace] on one code point, which is what [\s] tests on a [str]. *)
Definition is_space (x : char) : bool :=
  ((9 <=? x)%N && (x <=? 13)%N) || ((28 <=? x)%N && (x <=? 32)%N)
  || mem x [133; 160; 5760; 8232; 8233; 8239; 8287; 12288]%N
  || ((8192 <=? x)%N && (x <=? 8202)%N).

Definition cset_match (a : cset) (x : char) : bool :=
  match a with
  | CLit c => (fold_case x =? fold_case c)%N
  | CSpace => is_space x
  | CIn cs => mem x cs
  | CNotIn cs => negb (mem x cs)
  | CAny => true
  end.

Section Exec.
Variable R : Type.

(** Greedy repetition: one more character first, then the continuation. *)
Fixpoint star (a : cset) (s : text) (k : text -> option R) : option R :=
  match s with
  | x :: s' =>
      if cset_match a x then
        match star a s' k with
        | Some v => Some v
        | None => k s
        end
      else k s
  | [] => k s
  end.

(** Lazy repetition: the continuation first, then one more character. *)
Fixpoint lazy_star (a : cset) (s : text) (k : text -> option R) : option R :=
  match k s with
  | Some v => Some v
  | None =>
      match s with
      | x :: s' => if cset_match a x then lazy_star a s' k else None
      | [] => None
      end
  end.

(** The backtracking matcher: [exec r s k] matches [r] at the head of [s]
    and hands the rest to [k]; when [k] fails the next choice of [r] is
    tried.  The first success, in Python's order, is the answer. *)
Fixpoint exec (r : regex) (s : text) (k : text -> option R) : option R :=
  match r with
  | Eps => k s
  | One a =>
      match s with
      | x :: s' => if cset_match a x then k s' else None
      | [] => None
      end
  | Star a => star a s k
  | LazyStar a => lazy_star a s k
  | Cat r1 r2 => exec r1 s (fun s1 => exec r2 s1 k)
  | Alt r1 r2 =>
      match exec r1 s k with
      | Some v => Some v
      | None => exec r2 s k
      end
  end.
End Exec.

(** [pattern.match(s)]: the length of the match at the head of [s]. *)
Definition match_at (r : regex) (s : text) : option nat :=
  match exec r s (fun rest => Some rest) with
  | Some rest => Some (length s - length rest)
  | None => None
  end.

(** [pattern.search(s)]: offset and text of the leftmost match. *)
Fixpoint search_from (r : regex) (pos : nat) (s : text) : option (nat * text) :=
  match match_at r s with
  | Some len => Some (pos, firstn len s)
  | None =>
      match s with
      | _ :: s' => search_from r (S pos) s'
      | [] => None
      end
  end.

Definition search (r : regex) (s : text) : option (nat * text) :=
  search_from r 0 s.

(** [pattern.finditer(s)] for a pattern that cannot match the empty text:
    the leftmost match, then the scan resumes where the match ended.  [skip]
    counts the characters of the last match still to step over; the result
    lists [(m.start(), m.group())]. *)
Fixpoint finditer_from (r : regex) (pos skip : nat) (s : text)
  : list (nat * text) :=
  match s with
  | [] => []
  | _ :: s' =>
      match skip with
      | S n => finditer_from r (S pos) n s'
      | O =>
          match match_at r s with
          | Some len => (pos, firstn len s) :: finditer_from r (S pos) (pred len) s'
          | None => finditer_from r (S pos) 0 s'
          end
      end
  end.

Definition finditer (r : regex) (s : text) : list (nat * text) :=
  finditer_from r 0 0 s.

(** A literal word, and ['|'.join] of patterns. *)
Definition word (w : string) : regex :=
  fold_right (fun c r => Cat (One (CLit c)) r) Eps (str w).

Fixpoint alternation (rs : list regex) : regex :=
  match rs with
  | [] => Eps
  | [r] => r
  | r :: rs' => Alt r (alternation rs')
  end.

(** The language of a pattern, without priorities. *)
Inductive matches : regex -> text -> Prop :=
| MEps : matches Eps []
| MOne a x : cset_match a x = true -> matches (One a) [x]
| MStar a s : forallb (cset_match a) s = true -> matches (Star a) s
| MLazyStar a s : forallb (cset_match a) s = true -> matches (LazyStar a) s
| MCat r1 r2 s1 s2 : matches r1 s1 -> matches r2 s2 -> matches (Cat r1 r2) (s1 ++ s2)
| MAltL r1 r2 s : matches r1 s -> matches (Alt r1 r2) s
| MAltR r1 r2 s : matches r2 s -> matches (Alt r1 r2) s.

(** [w] occurs in [s]: some substring of [s] is in the language of [r]. *)
Definition occurs (r : regex) (s : text) : Prop :=
  exists pre mid post, s = pre ++ mid ++ post /\ matches r mid.

End Re.

(** ** [HTMLPageBreakSplitter] *)

Import Re.

(** [prop\s*:\s*value], the shape of every pattern of [__init__]. *)
Definition declaration (prop value : string) : regex :=
  Cat (word prop)
    (Cat (Star CSpace) (Cat (One (CLit 58%N)) (Cat (Star CSpace) (word value)))).

Definition page_break_patterns : list regex :=
  [ declaration "page-break-before" "always";
    declaration "page-break-after" "always";
    declaration "break-before" "page";
    declaration "break-after" "page";
    declaration "break-before" "always";
    declaration "break-after" "always" ].

Definition break_avoidance_patterns : list regex :=
  [ declaration "page-break-inside" "avoid";
    declaration "break-inside" "avoid";
    declaration "page-break-before" "avoid";
    declaration "page-break-after" "avoid";
    declaration "break-before" "avoid";
    declaration "break-after" "avoid" ].

(** [self.break_regex] and [self.avoid_regex]: each pattern in a group of
    its own, joined by [|]. *)
Definition break_regex : regex := alternation page_break_patterns.
Definition avoid_regex : regex := alternation break_avoidance_patterns.

Definition lt_sign : char := 60%N.
Definition gt_sign : char := 62%N.
Definition quotes : list char := [34; 39]%N.

(** The inside of group 1 of [tag_pattern]:
    [[^>]*style\s*=\s*["'][^"']*(?:...)[^"']*["'][^>]*]. *)
Definition tag_inside : regex :=
  Cat (Star (CNotIn [gt_sign]))
   (Cat (word "style")
    (Cat (Star CSpace)
     (Cat (One (CLit 61%N))
      (Cat (Star CSpace)
       (Cat (One (CIn quotes))
        (Cat (Star (CNotIn quotes))
         (Cat (alternation page_break_patterns)
          (Cat (Star (CNotIn quotes))
           (Cat (One (CIn quotes))
            (Star (CNotIn [gt_sign]))))))))))).

(** [tag_pattern]: [<( ... )>]. *)
Definition tag_pattern : regex :=
  Cat (One (CLit lt_sign)) (Cat tag_inside (One (CLit gt_sign))).

(** [match.group(1)] of a match of [tag_pattern]: the group opens right
    after the [<] and closes right before the final [>]. *)
Definition group1 (m : text) : text := removelast (tl m).

(** [avoid_regex.search(tag_content)] as a truth value. *)
Definition avoided (tag_content : text) : bool :=
  match search avoid_regex tag_content with
  | Some _ => true
  | None => false
  end.

(** Lines 54-66: the matches of [tag_pattern] whose tag carries no avoidance
    declaration, as [(match.start(), match.group())]. *)
Definition find_breaks (html_content : text) : list (nat * text) :=
  filter (fun m => negb (avoided (group1 (snd m))))
         (finditer tag_pattern html_content).

(** [list.sort(key=...)]: a stable sort, here by insertion. *)
Fixpoint insert_by {A} (key : A -> nat) (x : A) (l : list A) : list A :=
  match l with
  | [] => [x]
  | y :: l' => if key x <=? key y then x :: l else y :: insert_by key x l'
  end.

Definition sort_by {A} (key : A -> nat) (l : list A) : list A :=
  fold_right (insert_by key) [] l.

(** Lines 54-68: [break_positions] after the sort. *)
Definition break_positions (html_content : text) : list (nat * text) :=
  sort_by fst (find_breaks html_content).

(** The value under ['break_element_info']. *)
Inductive break_element_info :=
| NoBreaksFound                                  (** ['No breaks found'] *)
| BreakElement (break_text : text) (position : nat)
| FinalChunk.                                    (** ['Final chunk'] *)

(** One chunk dictionary. *)
Record chunk := {
  page : nat;
  content : text;
  has_break_before : bool;
  info : break_element_info
}.

(** The characters the loop of line 84 steps back over. *)
Definition is_trailing_ws (c : char) : bool := mem c [10; 13; 32; 9]%N.

(** Lines 83-85: [temp_break_pos] after the [while] loop.  [html_content[i]]
    raises [IndexError] past the end. *)
Fixpoint walk_back (html_content : text) (last_pos temp_break_pos : nat)
  : result nat :=
  match temp_break_pos with
  | O => Ok O
  | S t =>
      if last_pos <? temp_break_pos then
        match nth_error html_content t with
        | None => Raise IndexError
        | Some c =>
            if is_trailing_ws c then walk_back html_content last_pos t
            else Ok temp_break_pos
        end
      else Ok temp_break_pos
  end.

(** Lines 81-99: the [for] loop; the result is [chunks] and the final
    [last_pos]. *)
Fixpoint chunk_loop (html_content : text) (breaks : list (nat * text))
    (page_num last_pos : nat) : result (list chunk * nat) :=
  match breaks with
  | [] => Ok ([], last_pos)
  | (break_pos, break_text) :: rest =>
      temp_break_pos <- walk_back html_content last_pos break_pos ;;
      let c := {| page := page_num;
                  content := slice html_content last_pos temp_break_pos;
                  has_break_before := 1 <? page_num;
                  info := BreakElement (firstn 200 break_text) break_pos |} in
      ' (chunks, last) <- chunk_loop html_content rest (S page_num) break_pos ;;
      Ok (c :: chunks, last)
  end.

(** Lines 101-109: the final chunk, when it is not empty. *)
Definition final_chunks (html_content : text) (n last_pos : nat) : list chunk :=
  match slice_from html_content last_pos with
  | [] => []
  | final_chunk =>
      [ {| page := n + 1; content := final_chunk;
           has_break_before := true; info := FinalChunk |} ]
  end.

(** Lines 70-111: the chunks for a given list of break positions. *)
Definition segment (html_content : text) (breaks : list (nat * text))
  : result (list chunk) :=
  match breaks with
  | [] =>
      Ok [ {| page := 1; content := html_content;
              has_break_before := false; info := NoBreaksFound |} ]
  | _ =>
      ' (chunks, last_pos) <- chunk_loop html_content breaks 1 0 ;;
      Ok (chunks ++ final_chunks html_content (length breaks) last_pos)
  end.

Definition split_html_by_regex (html_content : text) : result (list chunk) :=
  segment html_content (break_positions html_content).

(** Lines 164-168 of [reconstruct_file]: the contents in page order. *)
Definition reconstruct (chunks : list chunk) : text :=
  fold_left (fun html_content c => html_content ++ content c)
            (sort_by page chunks) [].

(** ** [process_file] *)

(** The dictionary handed to [json.dump]. *)
Record metadata := {
  original_file : text;
  total_pages : nat;
  file_size : nat;
  parsing_method : text;
  head_content : text
}.

Record output_data := {
  meta : metadata;
  chunks : list chunk
}.

(** The file system: the decoded text of every existing path, and the
    accesses made so far, oldest first.  Paths are taken in normal form, so
    that [Path(p)] and [str(Path(p))] are [p]. *)
Inductive event :=
| PathExists (path : text)
| OpenRead (path : text)
| OpenWrite (path : text).

Record world := {
  files : text -> option text;
  trace : list event
}.

Definition text_eqb (a b : text) : bool :=
  if list_eq_dec N.eq_dec a b then true else false.

Definition log (e : event) (w : world) : world :=
  {| files := files w; trace := trace w ++ [e] |}.

Definition write_file (path data : text) (w : world) : world :=
  {| files := fun p => if text_eqb p path then Some data else files w p;
     trace := trace w ++ [OpenWrite path] |}.

(** [<head.*?</head>], compiled with DOTALL and IGNORECASE. *)
Definition head_pattern : regex :=
  Cat (word "<head") (Cat (LazyStar CAny) (word "</head>")).

Section ProcessFile.
(** What the module only calls: [Path.suffix], [Path.stem], [str.lower]
    and the text [json.dump] writes. *)
Variables suffix stem lower : text -> text.
Variable json_dump : output_data -> text.

Definition process_file (input_file : text) (output_file : option text)
    (w : world) : result text * world :=
  let input_path := input_file in
  let w := log (PathExists input_path) w in
  match files w input_path with
  | None =>
      (Raise (FileNotFoundError
                (str "Input file not found: " ++ input_file)), w)
  | Some stored =>
      if negb (existsb (text_eqb (lower (suffix input_path)))
                       [str ".html"; str ".htm"])
      then (Raise (ValueError (str "Input file must be an HTML or HTM file")), w)
      else
        let output_file :=
          match output_file with
          | None => stem input_path ++ str "_chunks.json"
          | Some o => o
          end in
        let w := log (OpenRead input_path) w in
        let html_content := stored in
        let file_size := length html_content in
        let head_content :=
          match search head_pattern html_content with
          | Some (_, m) => m
          | None => []
          end in
        match split_html_by_regex html_content with
        | Raise e => (Raise e, w)
        | Ok chunks =>
            let output_data :=
              {| meta := {| original_file := input_path;
                            total_pages := length chunks;
                            file_size := file_size;
                            parsing_method := str "regex";
                            head_content := head_content |};
                 chunks := chunks |} in
            (Ok output_file, write_file output_file (json_dump output_data) w)
        end
  end.
End ProcessFile.

(** ** Vocabulary of the statements *)

(** [linked html start cs sp]: [sp] gives each chunk of [cs] the slice
    [html[a:b]] its content is; the first slice starts at [start]; a chunk
    sent by a break at offset [p] ends at or before [p], with nothing but
    trailing white space between its end and [p], and the next slice starts
    at [p]; a chunk without a break (the only one, or the final one) runs to
    the end of the text and is the last. *)
Fixpoint linked (html : text) (start : nat) (cs : list chunk)
    (sp : list (nat * nat)) : Prop :=
  match cs, sp with
  | [], [] => True
  | c :: cs', (a, b) :: sp' =>
      a = start /\ a <= b <= length html /\ content c = slice html a b /\
      match info c with
      | BreakElement _ p =>
          b <= p /\ forallb is_trailing_ws (slice html b p) = true /\
          linked html p cs' sp'
      | _ => b = length html /\ cs' = [] /\ sp' = []
      end
  | _, _ => False
  end.

(** The order of matches and breaks by offset. *)
Definition before (a b : nat * text) : Prop := fst a < fst b.

(** [carries pats tag]: one of the patterns [pats] matches somewhere in
    [tag]. *)
Definition carries (pats : list regex) (tag : text) : Prop :=
  exists pat, In pat pats /\ occurs pat tag.

(** [has_break_before] of [k] chunks when it is true for all but the
    first. *)
Definition all_but_first (k : nat) : list bool :=
  match k with
  | O => []
  | S n => false :: repeat true n
  end.

(** ** Inputs used below *)

(** A break with one blank in front of its tag. *)
Definition blank_before_break : text := str "x <a style='break-after:page'>y".

(** The document of [test_no_breaks_file]. *)
Definition single_page : text :=
  str "<html><body><p>This is a single page document.</p></body></html>".

(** A document that starts with white space and a break. *)
Definition break_after_blanks : text := str "  <a style='break-after:page'>y".

(** A trigger, a trigger with an avoidance declaration, a trigger. *)
Definition three_tags : text :=
  str "<a style='break-after:page'><p style='break-inside:avoid;break-before:page'><b style='break-before:always'>".

(** The document of [test_break_avoidance]; [dq] is the double quote and
    [nl] the line feed. *)
Definition dq : string := String (ascii_of_nat 34) EmptyString.
Definition nl : string := String (ascii_of_nat 10) EmptyString.

Definition html_with_avoid : text :=
  str (nl ++ "    <html><body>" ++ nl
       ++ "    <div style=" ++ dq ++ "page-break-before: always;" ++ dq
       ++ ">Page 1</div>" ++ nl
       ++ "    <p style=" ++ dq
       ++ "page-break-inside: avoid; page-break-before: always;" ++ dq
       ++ ">This should not break</p>" ++ nl
       ++ "    <div style=" ++ dq ++ "page-break-before: always;" ++ dq
       ++ ">Page 2</div>" ++ nl
       ++ "    </body></html>" ++ nl ++ "    ").

(** [needle in haystack] on texts. *)
Fixpoint starts_with (needle haystack : text) : bool :=
  match needle, haystack with
  | [], _ => true
  | x :: needle', y :: haystack' => (x =? y)%N && starts_with needle' haystack'
  | _ :: _, [] => false
  end.

Fixpoint contains (needle haystack : text) : bool :=
  starts_with needle haystack
  || match haystack with
     | [] => false
     | _ :: haystack' => contains needle haystack'
     end.

(** The second tag of [three_tags], at offset 28. *)
Definition avoided_tag : text :=
  str "<p style='break-inside:avoid;break-before:page'>".

(** The break tag of [blank_before_break] and [break_after_blanks], and the
    chunk the loop makes of the former. *)
Definition break_tag : text := str "<a style='break-after:page'>".

Definition chunk_x : chunk :=
  {| page := 1; content := str "x"; has_break_before := false;
     info := BreakElement break_tag 2 |}.

(** A file system with one text file, and a stand-in for [Path.suffix] on
    plain file names: the name from its last dot on. *)
Definition one_file : world :=
  {| files := fun p => if text_eqb p (str "notes.txt") then Some (str "hello")
                       else None;
     trace := [] |}.

Fixpoint from_last_dot (name : text) : text :=
  match name with
  | [] => []
  | c :: rest =>
      match from_last_dot rest with
      | [] => if (c =? 46)%N then name else []
      | found => found
      end
  end.

(** ** [reconstruct_file] and [main] *)

Section ReconstructFile.
(** [Path.stem], and [json.load] together with the look-ups of lines 161,
    165 and 168 ([data['metadata']['original_file']], [data['chunks']],
    [x['page']], [chunk['content']]): the record read from a file of the
    shape [process_file] writes, or the exception raised on another file. *)
Variable stem : text -> text.
Variable json_load : text -> result output_data.

End ReconstructFile.




Section Main.
Variables suffix stem lower : text -> text.
Variable json_dump : output_data -> text.
Variable json_load : text -> result output_data.
(** What [traceback.print_exc] prints. *)
Variable print_exc : exn -> text.

End Main.

(** ** More vocabulary *)

(** The character in front of offset [p] is one the loop of line 84 steps
    back over. *)
Definition blank_before (html : text) (p : nat) : bool :=
  match p with
  | O => false
  | S q =>
      match nth_error html q with
      | Some c => is_trailing_ws c
      | None => false
      end
  end.

(** A text without the characters the loop steps back over. *)
Definition without_ws (t : text) : text :=
  filter (fun c => negb (is_trailing_ws c)) t.

(** The last character of a text is one the loop steps back over. *)
Definition ends_in_ws (t : text) : bool :=
  match rev t with
  | c :: _ => is_trailing_ws c
  | [] => false
  end.

(** [t] starts with [tag]. *)
Definition begins_with (t tag : text) : Prop := exists rest, t = tag ++ rest.

(** Matches and breaks that do not overlap: one ends before the next
    starts. *)
Definition apart (a b : nat * text) : Prop := fst a + length (snd a) <= fst b.

(** [b] is a tag of [html]: its text lies in [html] at its offset and runs
    from a [<] to a [>]. *)
Definition tag_at (html : text) (b : nat * text) : Prop :=
  snd b = slice html (fst b) (fst b + length (snd b)) /\
  fst b + length (snd b) <= length html /\
  exists inside, snd b = lt_sign :: inside ++ [gt_sign].

(** What the loop of lines 81-99 can rely on when it stands at [last_pos]
    with [breaks] still to come: they are tags of the text, none overlaps
    the next, and they lie after [last_pos] (the first may be at offset 0
    when [last_pos] is 0). *)
Definition ready (html : text) (last_pos : nat) (breaks : list (nat * text))
  : Prop :=
  last_pos <= length html /\
  Forall (tag_at html) breaks /\
  StronglySorted apart breaks /\
  Forall (fun b => last_pos < fst b \/ (last_pos = 0 /\ fst b = 0)) breaks.

(** No blank stands in front of any of the breaks. *)
Definition no_blank_before (html : text) (breaks : list (nat * text)) : bool :=
  forallb (fun b => negb (blank_before html (fst b))) breaks.

(** Two chunks of a record, page 2 first. *)
Definition chunk_aaa : chunk :=
  {| page := 1; content := str "AAA"; has_break_before := false;
     info := FinalChunk |}.

Definition chunk_bbb : chunk :=
  {| page := 2; content := str "BBB"; has_break_before := true;
     info := FinalChunk |}.

(** The record [process_file] builds at lines 135-144 for the text [html]
    read from [input_path] and its chunks. *)
Definition record_of (input_path html : text) (chunks : list chunk)
  : output_data :=
  {| meta := {| original_file := input_path;
                total_pages := length chunks;
                file_size := length html;
                parsing_method := str "regex";
                head_content :=
                  match search head_pattern html with
                  | Some (_, m) => m
                  | None => []
                  end |};
     chunks := chunks |}.






(** A document with a head section and a second closing tag further on. *)
Definition with_head : text :=
  str "<html><HEAD><title>t</title></head><body></head>".

Definition its_head : text := str "<HEAD><title>t</title></head>".

(** Two characters that differ in case at most, and two texts that do so
    character by character. *)
Definition same_letter (x y : char) : Prop := fold_case x = fold_case y.

Definition same_letters (s s' : text) : Prop := Forall2 same_letter s s'.

(** The sets of a pattern hold no letter (every member is below [A]). *)
Definition letter_free_set (a : cset) : bool :=
  match a with
  | CIn cs | CNotIn cs => forallb (fun c => (c <? 65)%N) cs
  | _ => true
  end.

Fixpoint letter_free (r : regex) : bool :=
  match r with
  | Eps => true
  | One a | Star a | LazyStar a => letter_free_set a
  | Cat r1 r2 | Alt r1 r2 => letter_free r1 && letter_free r2
  end.

(** Two outcomes of a matcher that agree: both fail, or both succeed and
    leave texts that differ in case at most. *)
Definition agree (o o' : option text) : Prop :=
  match o, o' with
  | None, None => True
  | Some t, Some t' => same_letters t t'
  | _, _ => False
  end.

(** Two lists of matches with the same offsets and texts that differ in
    case at most. *)
Definition same_matches (l l' : list (nat * text)) : Prop :=
  Forall2 (fun a b => fst a = fst b /\ same_letters (snd a) (snd b)) l l'.

(** The text of [blank_before_break] in capitals. *)
Definition blank_before_break_upper : text :=
  str "X <A STYLE='BREAK-AFTER:PAGE'>Y".

(** Two chunks that differ in the case of letters at most. *)
Definition same_chunk (c c' : chunk) : Prop :=
  page c = page c' /\
  same_letters (content c) (content c') /\
  has_break_before c = has_break_before c' /\
  match info c, info c' with
  | NoBreaksFound, NoBreaksFound => True
  | FinalChunk, FinalChunk => True
  | BreakElement t p, BreakElement t' p' => p = p' /\ same_letters t t'
  | _, _ => False
  end.

(** * Properties *)

(** ** The matcher against the language of a pattern *)

Module ReFacts.
Import Re.

Lemma star_sound R a s (k : text -> option R) v :
  star a s k = Some v ->
  exists s1 s2, s = s1 ++ s2 /\ forallb (cset_match a) s1 = true /\ k s2 = Some v.
Proof.
  induction s as [|x s IH]; simpl; intros H.
  - exists [], []. auto.
  - destruct (cset_match a x) eqn:Hx.
    + destruct (star a s k) as [v'|] eqn:Hs.
      * injection H as ->. destruct (IH eq_refl) as (s1 & s2 & -> & Hall & Hk).
        exists (x :: s1), s2. simpl. rewrite Hx, Hall. auto.
      * exists [], (x :: s). auto.
    + exists [], (x :: s). auto.
Qed.

Lemma lazy_star_sound R a s (k : text -> option R) v :
  lazy_star a s k = Some v ->
  exists s1 s2, s = s1 ++ s2 /\ forallb (cset_match a) s1 = true /\ k s2 = Some v.
Proof.
  induction s as [|x s IH]; simpl; intros H.
  - destruct (k []) eqn:Hk; [|discriminate]. exists [], []. rewrite Hk. auto.
  - destruct (k (x :: s)) eqn:Hk.
    + exists [], (x :: s). rewrite Hk. auto.
    + destruct (cset_match a x) eqn:Hx; [|discriminate].
      destruct (IH H) as (s1 & s2 & -> & Hall & Hk2).
      exists (x :: s1), s2. simpl. rewrite Hx, Hall. auto.
Qed.

(** Soundness: a success of the matcher splits the text into a word of the
    language and a rest the continuation accepts. *)
Lemma exec_sound R r : forall s (k : text -> option R) v,
  exec r s k = Some v ->
  exists s1 s2, s = s1 ++ s2 /\ matches r s1 /\ k s2 = Some v.
Proof.
  induction r as [|a|a|a|r1 IH1 r2 IH2|r1 IH1 r2 IH2]; simpl; intros s k v H.
  - exists [], s. repeat split; auto. constructor.
  - destruct s as [|x s]; [discriminate|].
    destruct (cset_match a x) eqn:Hx; [|discriminate].
    exists [x], s. repeat split; auto. now constructor.
  - destruct (star_sound _ _ _ H) as (s1 & s2 & -> & Hall & Hk).
    exists s1, s2. repeat split; auto. now constructor.
  - destruct (lazy_star_sound _ _ _ H) as (s1 & s2 & -> & Hall & Hk).
    exists s1, s2. repeat split; auto. now constructor.
  - destruct (IH1 _ _ _ H) as (s1 & s' & -> & M1 & H2).
    destruct (IH2 _ _ _ H2) as (s2 & s3 & -> & M2 & Hk).
    exists (s1 ++ s2), s3. rewrite <- app_assoc. repeat split; auto.
    now constructor.
  - destruct (exec r1 s k) as [v'|] eqn:H1.
    + injection H as ->. destruct (IH1 _ _ _ H1) as (s1 & s2 & -> & M & Hk).
      exists s1, s2. repeat split; auto. now apply MAltL.
    + destruct (IH2 _ _ _ H) as (s1 & s2 & -> & M & Hk).
      exists s1, s2. repeat split; auto. now apply MAltR.
Qed.

Lemma star_complete R a s1 : forall s2 (k : text -> option R) v,
  forallb (cset_match a) s1 = true -> k s2 = Some v ->
  exists v', star a (s1 ++ s2) k = Some v'.
Proof.
  induction s1 as [|x s1 IH]; simpl; intros s2 k v Hall Hk.
  - destruct s2 as [|y s2]; simpl; [eauto|].
    destruct (cset_match a y); [|eauto].
    destruct (star a s2 k); eauto.
  - apply andb_true_iff in Hall as [Hx Hall]. rewrite Hx.
    destruct (IH _ _ _ Hall Hk) as [v' ->]. eauto.
Qed.

Lemma lazy_star_complete R a s1 : forall s2 (k : text -> option R) v,
  forallb (cset_match a) s1 = true -> k s2 = Some v ->
  exists v', lazy_star a (s1 ++ s2) k = Some v'.
Proof.
  induction s1 as [|x s1 IH]; simpl; intros s2 k v Hall Hk.
  - destruct s2 as [|y s2]; simpl; rewrite Hk; eauto.
  - apply andb_true_iff in Hall as [Hx Hall].
    destruct (k (x :: s1 ++ s2)); [eauto|]. rewrite Hx. eauto.
Qed.

(** Completeness: when some split of the text has a word of the language
    in front and a rest the continuation accepts, the matcher succeeds
    (on that split or on one of higher priority). *)
Lemma exec_complete r s1 : matches r s1 ->
  forall R s2 (k : text -> option R) v,
  k s2 = Some v -> exists v', exec r (s1 ++ s2) k = Some v'.
Proof.
  induction 1 as [|a x Hx|a s Hall|a s Hall|r1 r2 s1 s2 M1 IH1 M2 IH2
                  |r1 r2 s M IH|r1 r2 s M IH]; simpl; intros R t k v Hk.
  - eauto.
  - rewrite Hx. eauto.
  - eapply star_complete; eauto.
  - eapply lazy_star_complete; eauto.
  - rewrite <- app_assoc.
    destruct (IH2 _ _ _ _ Hk) as [v2 H2].
    apply (IH1 _ _ (fun s => exec r2 s k) _ H2).
  - destruct (IH _ _ _ _ Hk) as [v' ->]. eauto.
  - destruct (exec r1 (s ++ t) k); eauto.
Qed.

Lemma match_at_Some r s n :
  match_at r s = Some n -> n <= length s /\ matches r (firstn n s).
Proof.
  unfold match_at. destruct (exec r s (fun rest => Some rest)) as [rest|] eqn:H;
    [|discriminate].
  intros [= <-]. destruct (exec_sound _ _ _ H) as (s1 & s2 & -> & M & [= ->]).
  rewrite length_app. replace (length s1 + length rest - length rest)
    with (length s1 + 0) by lia.
  rewrite firstn_app_2, app_nil_r. split; [lia|assumption].
Qed.

Lemma match_at_None r s1 s2 :
  match_at r (s1 ++ s2) = None -> ~ matches r s1.
Proof.
  unfold match_at. intros H M.
  destruct (exec_complete M s2 (fun rest => Some rest) eq_refl) as [v Hv].
  rewrite Hv in H. discriminate.
Qed.

Lemma search_from_Some r : forall s pos p m,
  search_from r pos s = Some (p, m) -> occurs r s.
Proof.
  induction s as [|x s IH]; simpl; intros pos p m H.
  - destruct (match_at r []) as [n|] eqn:Hm; [|discriminate].
    apply match_at_Some in Hm as [_ M]. exists [], (firstn n []), [].
    rewrite firstn_nil in *. auto.
  - destruct (match_at r (x :: s)) as [n|] eqn:Hm.
    + apply match_at_Some in Hm as [_ M].
      exists [], (firstn n (x :: s)), (skipn n (x :: s)).
      simpl app. rewrite firstn_skipn. auto.
    + destruct (IH _ _ _ H) as (pre & mid & post & -> & M).
      exists (x :: pre), mid, post. auto.
Qed.

Lemma search_from_None r : forall s pos,
  search_from r pos s = None -> ~ occurs r s.
Proof.
  induction s as [|x s IH]; simpl; intros pos H (pre & mid & post & E & M).
  - destruct (match_at r []) eqn:Hm; [discriminate|].
    destruct pre; [|discriminate]. destruct mid; [|discriminate].
    apply (@match_at_None r [] [] Hm M).
  - destruct (match_at r (x :: s)) eqn:Hm; [discriminate|].
    destruct pre as [|y pre]; simpl in E.
    + rewrite E in Hm. exact (@match_at_None r mid post Hm M).
    + injection E as -> ->. apply (IH _ H). exists pre, mid, post. auto.
Qed.

(** [pattern.search] succeeds exactly when the pattern occurs. *)
Lemma search_occurs r s : (exists x, search r s = Some x) <-> occurs r s.
Proof.
  unfold search. split.
  - intros [[p m] H]. eapply search_from_Some; eauto.
  - intros H. destruct (search_from r 0 s) eqn:E; [eauto|].
    now apply search_from_None in E.
Qed.

End ReFacts.

(** ** The scan of [finditer] *)

Module ScanFacts.
Import Re ReFacts.

(** Every reported match starts inside the text, at or after the point the
    scan resumed from, and is the match of the pattern at its offset. *)
Lemma finditer_from_In r : forall s pos skip p m,
  In (p, m) (finditer_from r pos skip s) ->
  pos + skip <= p /\ p < pos + length s /\
  match_at r (skipn (p - pos) s) = Some (length m) /\
  m = firstn (length m) (skipn (p - pos) s).
Proof.
  induction s as [|x s IH]; simpl; intros pos skip p m H; [contradiction|].
  assert (Tail : forall k, In (p, m) (finditer_from r (S pos) k s) ->
            S pos + k <= p /\ p < pos + S (length s) /\
            match_at r (skipn (p - pos) (x :: s)) = Some (length m) /\
            m = firstn (length m) (skipn (p - pos) (x :: s))).
  { intros k Hk. destruct (IH _ _ _ _ Hk) as (H1 & H2 & H3 & H4).
    replace (p - pos) with (S (p - S pos)) by lia. simpl.
    repeat split; auto; lia. }
  destruct skip as [|n].
  - destruct (match_at r (x :: s)) as [len|] eqn:Hm.
    + destruct H as [[= <- <-]|H].
      * destruct (match_at_Some _ _ Hm) as [Hlen _]. simpl in Hlen.
        rewrite Nat.sub_diag. simpl skipn.
        rewrite length_firstn, Nat.min_l by (simpl; lia).
        repeat split; auto; lia.
      * destruct (Tail _ H) as (H1 & H2 & H3 & H4). repeat split; auto; lia.
    + destruct (Tail _ H) as (H1 & H2 & H3 & H4). repeat split; auto; lia.
  - destruct (Tail _ H) as (H1 & H2 & H3 & H4). repeat split; auto; lia.
Qed.

(** The offsets of the reported matches increase strictly. *)
Lemma finditer_from_sorted r : forall s pos skip,
  StronglySorted before (finditer_from r pos skip s).
Proof.
  induction s as [|x s IH]; simpl; intros pos skip; [constructor|].
  destruct skip as [|n]; [|apply IH].
  destruct (match_at r (x :: s)) as [len|]; [|apply IH].
  constructor; [apply IH|].
  apply Forall_forall. intros [p m] H.
  apply finditer_from_In in H. unfold before. simpl. lia.
Qed.

Lemma sorted_filter A (R : A -> A -> Prop) f l :
  StronglySorted R l -> StronglySorted R (filter f l).
Proof.
  induction 1 as [|a l S IH F]; simpl; [constructor|].
  destruct (f a); [|assumption].
  constructor; [assumption|].
  apply Forall_forall. intros y Hy. apply filter_In in Hy as [Hy _].
  rewrite Forall_forall in F. auto.
Qed.

(** The stable sort leaves a list in increasing key order as it is. *)
Lemma sort_by_sorted A (key : A -> nat) l :
  StronglySorted (fun a b => key a <= key b) l -> sort_by key l = l.
Proof.
  induction 1 as [|a l S IH F]; simpl; [reflexivity|].
  fold (sort_by key l). rewrite IH.
  destruct l as [|b l]; simpl; [reflexivity|].
  inversion F as [|? ? Hab _]; subst.
  apply Nat.leb_le in Hab. now rewrite Hab.
Qed.

Lemma sorted_weaken A (R Q : A -> A -> Prop) l :
  (forall a b, R a b -> Q a b) -> StronglySorted R l -> StronglySorted Q l.
Proof.
  intros HRQ. induction 1 as [|a l S IH F]; constructor; auto.
  eapply Forall_impl; [|exact F]. auto.
Qed.

Lemma sorted_fst_unique l p m m' :
  StronglySorted before l -> In (p, m) l -> In (p, m') l -> m = m'.
Proof.
  induction 1 as [|a l S IH F]; simpl; [contradiction|].
  rewrite Forall_forall in F.
  intros [->|H1] [E|H2].
  - now injection E.
  - apply F in H2. unfold before in H2. simpl in H2. lia.
  - subst a. apply F in H1. unfold before in H1. simpl in H1. lia.
  - auto.
Qed.

End ScanFacts.

(** ** The break locator *)

Module LocatorFacts.
Import Re ReFacts ScanFacts.

Lemma fold_case_punct x c :
  (c < 65)%N -> (fold_case x =? fold_case c)%N = true -> x = c.
Proof.
  intros Hc H. apply N.eqb_eq in H. revert H. unfold fold_case.
  repeat match goal with
  | |- context [(?a <=? ?b)%N] => destruct (N.leb_spec a b)
  | |- context [(?a =? ?b)%N] => destruct (N.eqb_spec a b)
  end; simpl; lia.
Qed.

(** A match of [tag_pattern] is [<], a word of [tag_inside], [>]. *)
Lemma tag_pattern_shape m :
  matches tag_pattern m ->
  exists inside, m = lt_sign :: inside ++ [gt_sign] /\ matches tag_inside inside.
Proof.
  unfold tag_pattern. intros M.
  inversion M as [| | | |r1 r2 s1 s2 M1 M2| |]; subst.
  inversion M1 as [|a x Hx| | | | |]; subst.
  inversion M2 as [| | | |r1 r2 s3 s4 M3 M4| |]; subst.
  inversion M4 as [|a y Hy| | | | |]; subst.
  apply fold_case_punct in Hx; [|reflexivity].
  apply fold_case_punct in Hy; [|reflexivity].
  subst. exists s3. auto.
Qed.

Lemma group1_shape inside : group1 (lt_sign :: inside ++ [gt_sign]) = inside.
Proof. unfold group1. simpl. apply removelast_last. Qed.

(** The sort of line 68 changes nothing: [finditer] reports its matches by
    increasing offset. *)
Lemma find_breaks_sorted html : StronglySorted before (find_breaks html).
Proof. apply sorted_filter, finditer_from_sorted. Qed.

Lemma break_positions_eq html : break_positions html = find_breaks html.
Proof.
  apply sort_by_sorted.
  eapply sorted_weaken; [|apply find_breaks_sorted].
  unfold before. intros; lia.
Qed.

(** What a recorded break is: the offset of a [<] inside the text, with the
    match of [tag_pattern] there. *)
Lemma break_positions_In html p m :
  In (p, m) (break_positions html) ->
  p < length html /\ m = slice html p (p + length m) /\
  matches tag_pattern m /\ nth_error html p = Some lt_sign /\
  avoided (group1 m) = false.
Proof.
  rewrite break_positions_eq. unfold find_breaks. intros H.
  apply filter_In in H as [H Hav]. simpl in Hav.
  apply finditer_from_In in H as (_ & Hp & Hm & E).
  rewrite Nat.sub_0_r in Hm, E. simpl in Hp.
  apply match_at_Some in Hm as [Hlen M]. rewrite <- E in M.
  assert (Es : m = slice html p (p + length m)).
  { unfold slice. now replace (p + length m - p) with (length m) by lia. }
  repeat split; auto.
  - destruct (tag_pattern_shape M) as (inside & Em & _).
    rewrite <- (firstn_skipn p html) at 1.
    rewrite nth_error_app2 by (rewrite length_firstn; lia).
    rewrite length_firstn, Nat.min_l, Nat.sub_diag by lia.
    rewrite Em in E. destruct (skipn p html); [discriminate|].
    simpl in E. now injection E as <- _.
  - now apply negb_true_iff.
Qed.

Lemma alternation_matches rs s :
  rs <> [] ->
  (matches (alternation rs) s <-> exists r, In r rs /\ matches r s).
Proof.
  induction rs as [|r rs IH]; intros Hne; [contradiction|].
  destruct rs as [|r' rs].
  - simpl. split; [eauto|]. intros (r0 & [<-|[]] & M). exact M.
  - change (alternation (r :: r' :: rs)) with (Alt r (alternation (r' :: rs))).
    split.
    + intros M. inversion M as [| | | | |? ? ? M1|? ? ? M2]; subst.
      * exists r. simpl. auto.
      * apply IH in M2 as (r0 & Hin & M0); [|discriminate].
        exists r0. split; [now right|assumption].
    + intros (r0 & [<-|Hin] & M0).
      * now apply MAltL.
      * apply MAltR, IH; [discriminate|eauto].
Qed.

Lemma occurs_alternation rs s :
  rs <> [] -> (occurs (alternation rs) s <-> carries rs s).
Proof.
  intros Hne. unfold occurs, carries. split.
  - intros (pre & mid & post & E & M).
    apply alternation_matches in M; [|assumption].
    destruct M as (r & Hin & M). exists r. split; [assumption|].
    exists pre, mid, post. auto.
  - intros (r & Hin & pre & mid & post & E & M).
    exists pre, mid, post. split; [assumption|].
    apply alternation_matches; eauto.
Qed.

(** [avoid_regex.search] finds something exactly when the tag carries an
    avoidance pattern. *)
Lemma avoided_iff tag :
  avoided tag = true <-> carries break_avoidance_patterns tag.
Proof.
  unfold avoided, avoid_regex.
  rewrite <- occurs_alternation by discriminate.
  rewrite <- search_occurs.
  destruct (search (alternation break_avoidance_patterns) tag).
  - split; eauto.
  - split; [discriminate|]. intros [x Hx]. discriminate.
Qed.

Ltac invert_cats :=
  repeat match goal with
  | M : matches (Cat _ _) _ |- _ => inversion M; subst; clear M
  end.

(** The inside of a candidate tag carries a trigger pattern. *)
Lemma tag_inside_carries inside :
  matches tag_inside inside -> carries page_break_patterns inside.
Proof.
  unfold tag_inside. intros M. invert_cats.
  apply occurs_alternation; [discriminate|].
  match goal with
  | H : matches (Alt _ _) ?mid
    |- occurs _ (?a ++ ?b ++ ?c ++ ?d ++ ?e ++ ?f ++ ?g ++ ?mid ++ ?post) =>
      exists (a ++ b ++ c ++ d ++ e ++ f ++ g), mid, post;
      split; [now rewrite <- !app_assoc|exact H]
  end.
Qed.

End LocatorFacts.

(** ** The segmenter *)

Module SegmentFacts.
Import Re ReFacts ScanFacts LocatorFacts.

Lemma firstn_succ_nth (l : text) : forall n c,
  nth_error l n = Some c -> firstn (S n) l = firstn n l ++ [c].
Proof.
  induction l as [|x l IH]; intros [|n] c H; try discriminate.
  - now injection H as ->.
  - simpl in H. cbn [firstn app]. f_equal. now apply IH.
Qed.

Lemma slice_snoc html r t c :
  r <= t -> nth_error html t = Some c ->
  slice html r (S t) = slice html r t ++ [c].
Proof.
  intros Hr Hc. unfold slice. replace (S t - r) with (S (t - r)) by lia.
  apply firstn_succ_nth. rewrite nth_error_skipn.
  now replace (r + (t - r)) with t by lia.
Qed.

Lemma slice_empty html a : slice html a a = [].
Proof. unfold slice. now rewrite Nat.sub_diag. Qed.

(** The walk back from a position inside the text never fails; it stops at
    or after [last_pos], having stepped over trailing white space only, and
    it stops early only in front of another character. *)
Lemma walk_back_ok html last_pos : forall temp,
  temp <= length html ->
  exists t, walk_back html last_pos temp = Ok t /\ t <= temp /\
    (last_pos <= temp -> last_pos <= t) /\
    forallb is_trailing_ws (slice html t temp) = true /\
    (last_pos < t ->
     exists c, nth_error html (t - 1) = Some c /\ is_trailing_ws c = false).
Proof.
  induction temp as [|t IH]; intros Hlen.
  - exists 0. simpl. repeat split; auto; lia.
  - cbn [walk_back]. destruct (last_pos <? S t) eqn:Hlt.
    + apply Nat.ltb_lt in Hlt.
      destruct (nth_error html t) as [c|] eqn:Hc;
        [|apply nth_error_None in Hc; lia].
      destruct (is_trailing_ws c) eqn:Hws.
      * destruct IH as (r & -> & Hr & Hlast & Hall & Hstop); [lia|].
        exists r. repeat split; auto; try lia.
        rewrite (slice_snoc _ Hr Hc), forallb_app, Hall. simpl.
        now rewrite Hws.
      * exists (S t). repeat split; auto; try lia.
        -- now rewrite slice_empty.
        -- intros _. exists c. simpl. now rewrite Nat.sub_0_r.
    + apply Nat.ltb_ge in Hlt. exists (S t). repeat split; auto; try lia.
      now rewrite slice_empty.
Qed.

(** When only trailing white space precedes the break, the walk back from
    it reaches offset 0. *)
Lemma walk_back_all_ws html : forall temp,
  temp <= length html ->
  forallb is_trailing_ws (firstn temp html) = true ->
  walk_back html 0 temp = Ok 0.
Proof.
  induction temp as [|t IH]; intros Hlen Hall; [reflexivity|].
  cbn [walk_back]. change (0 <? S t) with true. cbv iota.
  destruct (nth_error html t) as [c|] eqn:Hc;
    [|apply nth_error_None in Hc; lia].
  rewrite (firstn_succ_nth _ _ Hc), forallb_app in Hall.
  apply andb_true_iff in Hall as [Ha Hb].
  simpl in Hb. rewrite andb_true_r in Hb. rewrite Hb. apply IH; [lia|assumption].
Qed.

Lemma last_cons (l : list nat) : forall x d, last (x :: l) d = last l x.
Proof.
  induction l as [|y l IH]; intros x d; [reflexivity|].
  change (last (y :: l) d = last (y :: l) x). now rewrite !IH.
Qed.

(** The loop numbers its chunks from [page_num] on, one per break, and
    leaves [last_pos] at the last break. *)
Lemma chunk_loop_pages html : forall breaks page_num last_pos chunks last,
  chunk_loop html breaks page_num last_pos = Ok (chunks, last) ->
  last = List.last (map fst breaks) last_pos /\
  length chunks = length breaks /\
  map page chunks = seq page_num (length breaks) /\
  map has_break_before chunks = map (Nat.ltb 1) (seq page_num (length breaks)).
Proof.
  induction breaks as [|[bp bt] rest IH]; intros page_num last_pos chunks last H.
  - simpl in H. injection H as <- <-. auto.
  - cbn [chunk_loop] in H.
    destruct (walk_back html last_pos bp) as [t|e]; [|discriminate].
    cbn [bind] in H.
    destruct (chunk_loop html rest (S page_num) bp) as [[cs l]|e] eqn:Hrest;
      [|discriminate].
    cbn [bind] in H. injection H as <- <-.
    destruct (IH _ _ _ _ Hrest) as (Hl & Hlen & Hp & Hb).
    repeat split.
    + rewrite Hl. cbn [map fst]. symmetry. apply last_cons.
    + cbn [length]. now rewrite Hlen.
    + cbn [length seq map page]. now rewrite Hp.
    + cbn [length seq map has_break_before]. now rewrite Hb.
Qed.

(** On breaks inside the text the loop raises nothing. *)
Lemma chunk_loop_total html : forall breaks page_num last_pos,
  Forall (fun b => fst b <= length html) breaks ->
  exists chunks last, chunk_loop html breaks page_num last_pos = Ok (chunks, last).
Proof.
  induction breaks as [|[bp bt] rest IH]; intros page_num last_pos F.
  - simpl. eauto.
  - inversion F as [|? ? Hbp Frest]; subst. simpl in Hbp.
    destruct (walk_back_ok html last_pos Hbp) as (t & Ht & _).
    destruct (IH (S page_num) bp Frest) as (cs & l & Hcs).
    cbn [chunk_loop]. rewrite Ht. cbn [bind]. rewrite Hcs. cbn [bind]. eauto.
Qed.

(** The slices of the chunks of the loop, followed by those of whatever
    comes after the last break. *)
Lemma chunk_loop_linked html : forall breaks page_num last_pos chunks last,
  Forall (fun b => fst b <= length html) breaks ->
  StronglySorted (fun a b => fst a <= fst b) breaks ->
  Forall (fun b => last_pos <= fst b) breaks ->
  chunk_loop html breaks page_num last_pos = Ok (chunks, last) ->
  forall tail_cs tail_sp, linked html last tail_cs tail_sp ->
  exists sp, linked html last_pos (chunks ++ tail_cs) (sp ++ tail_sp).
Proof.
  induction breaks as [|[bp bt] rest IH];
    intros page_num last_pos chunks last F Srt L H tail_cs tail_sp T.
  - simpl in H. injection H as <- <-. exists []. exact T.
  - inversion F as [|? ? Hbp Frest]; subst. simpl in Hbp.
    inversion Srt as [|? ? Srest Hle]; subst.
    inversion L as [|? ? Hlast _]; subst. simpl in Hlast.
    cbn [chunk_loop] in H.
    destruct (walk_back_ok html last_pos Hbp) as (t & Ht & Htle & Hge & Hws & _).
    rewrite Ht in H. cbn [bind] in H.
    destruct (chunk_loop html rest (S page_num) bp) as [[cs l]|e] eqn:Hrest;
      [|discriminate].
    cbn [bind] in H. injection H as <- <-.
    destruct (IH _ _ _ _ Frest Srest Hle Hrest _ _ T) as [sp Hsp].
    exists ((last_pos, t) :: sp). simpl.
    repeat split; auto; lia.
Qed.

End SegmentFacts.

(** * The claims *)

Module Claims.
Import Re ReFacts ScanFacts LocatorFacts SegmentFacts.

Lemma break_positions_inside html :
  Forall (fun b => fst b <= length html) (break_positions html).
Proof.
  apply Forall_forall. intros [p m] H.
  apply break_positions_In in H as (Hp & _). simpl. lia.
Qed.

Lemma break_positions_sorted html :
  StronglySorted (fun a b => fst a <= fst b) (break_positions html).
Proof.
  rewrite break_positions_eq.
  eapply sorted_weaken; [|apply find_breaks_sorted].
  unfold before. intros; lia.
Qed.

Lemma ltb_1_seq : forall n k, map (Nat.ltb 1) (seq (2 + k) n) = repeat true n.
Proof.
  induction n as [|n IH]; intros k; [reflexivity|].
  cbn [seq map repeat]. f_equal. apply (IH (S k)).
Qed.

Lemma all_but_first_seq n : map (Nat.ltb 1) (seq 1 n) = all_but_first n.
Proof.
  destruct n as [|n]; [reflexivity|].
  cbn [seq map all_but_first]. f_equal. apply (ltb_1_seq n 0).
Qed.

Lemma all_but_first_snoc n : all_but_first (S n + 1) = all_but_first (S n) ++ [true].
Proof.
  cbn [all_but_first Nat.add app]. f_equal.
  replace (n + 1) with (S n) by lia. apply repeat_cons.
Qed.

(** The numbering of the chunks of [segment], for any list of breaks. *)
Lemma segment_pages html breaks cs :
  segment html breaks = Ok cs ->
  cs <> [] /\ map page cs = seq 1 (length cs) /\
  map has_break_before cs = all_but_first (length cs).
Proof.
  destruct breaks as [|b breaks].
  - intros [= <-]. repeat split. discriminate.
  - unfold segment.
    destruct (chunk_loop html (b :: breaks) 1 0) as [[chunks last]|e] eqn:Hloop;
      [|discriminate].
    cbn [bind]. intros [= <-].
    destruct (chunk_loop_pages _ _ _ _ Hloop) as (_ & Hlen & Hp & Hb).
    rewrite all_but_first_seq in Hb. cbn [length] in *.
    unfold final_chunks. destruct (slice_from html last) as [|c rest].
    + rewrite app_nil_r, Hlen. repeat split; auto.
      destruct chunks; discriminate.
    + rewrite length_app, !map_app, Hlen, Hp, Hb. cbn [length map page has_break_before].
      repeat split.
      * destruct chunks; discriminate.
      * rewrite (Nat.add_comm (S (length breaks)) 1) at 2. cbn [Nat.add].
        rewrite (seq_S (S (length breaks)) 1).
        now rewrite (Nat.add_comm 1 (S (length breaks))).
      * symmetry. apply all_but_first_snoc.
Qed.

(** [split_html_by_regex] raises nothing. *)
Lemma split_total html : exists cs, split_html_by_regex html = Ok cs.
Proof.
  unfold split_html_by_regex, segment.
  destruct (break_positions html) as [|b breaks] eqn:E; [eauto|].
  destruct (@chunk_loop_total html _ 1 0 (break_positions_inside html))
    as (chunks & last & Hloop).
  rewrite E in Hloop. rewrite Hloop. cbn [bind]. eauto.
Qed.

(** After a loop that succeeded, [segment] appends the final chunks. *)
Lemma segment_after_loop html breaks chunks last :
  breaks <> [] ->
  chunk_loop html breaks 1 0 = Ok (chunks, last) ->
  segment html breaks = Ok (chunks ++ final_chunks html (length breaks) last).
Proof.
  intros Hne Hloop. destruct breaks as [|b breaks]; [contradiction|].
  unfold segment. rewrite Hloop. reflexivity.
Qed.

Lemma final_chunks_cases html n last :
  (slice_from html last = [] /\ final_chunks html n last = []) \/
  (slice_from html last <> [] /\
   final_chunks html n last =
   [ {| page := n + 1; content := slice_from html last;
        has_break_before := true; info := FinalChunk |} ]).
Proof.
  unfold final_chunks. destruct (slice_from html last); [now left|].
  right. split; [discriminate|reflexivity].
Qed.

Lemma last_in (l : list nat) : forall d, l <> [] -> In (last l d) l.
Proof.
  induction l as [|x l IH]; intros d Hne; [contradiction|].
  destruct l as [|y l]; [now left|].
  right. apply (IH d). discriminate.
Qed.

(** What follows the last recorded break is never empty. *)
Lemma text_after_last_break html :
  break_positions html <> [] ->
  slice_from html (last (map fst (break_positions html)) 0) <> [].
Proof.
  intros Hne.
  assert (Hin : In (last (map fst (break_positions html)) 0)
                   (map fst (break_positions html))).
  { apply last_in. destruct (break_positions html); [contradiction|discriminate]. }
  apply in_map_iff in Hin as ([p m] & E & Hin).
  apply break_positions_In in Hin as (Hp & _). simpl in E. rewrite <- E.
  unfold slice_from. intros E'. apply skipn_all_iff in E'. lia.
Qed.

(** A match of [tag_pattern] has at least its [<] and its [>], so the scan
    of [finditer] always moves on. *)
Lemma tag_pattern_not_empty s n : match_at tag_pattern s = Some n -> 2 <= n.
Proof.
  intros H. apply match_at_Some in H as [Hlen M].
  apply tag_pattern_shape in M as (inside & E & _).
  apply (f_equal (@length char)) in E.
  rewrite length_firstn in E. simpl in E. rewrite length_app in E. simpl in E.
  lia.
Qed.

(** The assertions of [test_break_avoidance] hold of the embedding: three
    chunks, with "Page 1" in the second and "Page 2" in the third. *)
Example test_break_avoidance_passes :
  exists c0 c1 c2,
    split_html_by_regex html_with_avoid = Ok [c0; c1; c2] /\
    contains (str "Page 1") (content c1) = true /\
    contains (str "This should not break") (content c1) = true /\
    contains (str "Page 2") (content c2) = true.
Proof. do 3 eexists. split; [vm_compute; reflexivity|]. now vm_compute. Qed.

(** Without a break the text comes back as it went in. *)
Lemma roundtrip_without_breaks html :
  break_positions html = [] ->
  exists cs, split_html_by_regex html = Ok cs /\ reconstruct cs = html.
Proof.
  intros E. unfold split_html_by_regex. rewrite E. eexists. split; reflexivity.
Qed.

(** C1 (round trip), evaluated where the code departs from it: on
    ["x <a style='break-after:page'>y"] the chunks concatenate, in page
    order, to ["x<a style='break-after:page'>y"]; the blank in front of the
    break tag is lost, so splitting and reconstructing does not give the
    input back. *)
Theorem roundtrip_drops_blank_before_break :
  exists cs, split_html_by_regex blank_before_break = Ok cs /\
    reconstruct cs = str "x<a style='break-after:page'>y" /\
    reconstruct cs <> blank_before_break.
Proof.
  eexists. split; [vm_compute; reflexivity|].
  split; [reflexivity|vm_compute; discriminate].
Qed.

(** C2 (trailing white space goes to the earlier chunk), evaluated where
    the code departs from it: on ["x <a style='break-after:page'>y"] the
    break is at offset 2, the first chunk is ["x"] without the blank that
    precedes the break, and the second chunk starts at the [<] of the break
    tag; the blank is in neither. *)
Theorem blank_before_break_in_no_chunk :
  split_html_by_regex blank_before_break =
  Ok [ {| page := 1; content := str "x"; has_break_before := false;
          info := BreakElement (str "<a style='break-after:page'>") 2 |};
       {| page := 2; content := str "<a style='break-after:page'>y";
          has_break_before := true; info := FinalChunk |} ].
Proof. vm_compute. reflexivity. Qed.

(** C3 (monotonic boundaries): for every text the chunks, in page order,
    are slices [html[a:b]] of the text with [a <= b]; the first starts at
    0, each next one starts at the offset of the break that closed the one
    before it, which is where the white space stepped over at that boundary
    ends, and no slice reaches past the start of the next. *)
Theorem monotonic_boundaries html :
  exists cs sp, split_html_by_regex html = Ok cs /\ linked html 0 cs sp.
Proof.
  unfold split_html_by_regex, segment.
  destruct (break_positions html) as [|b breaks] eqn:E.
  - eexists _, [(0, length html)]. split; [reflexivity|].
    simpl. unfold slice. rewrite Nat.sub_0_r, firstn_all.
    repeat split; auto; lia.
  - pose proof (break_positions_inside html) as Hin.
    pose proof (break_positions_sorted html) as Hs.
    rewrite E in Hin, Hs.
    destruct (@chunk_loop_total html _ 1 0 Hin) as (chunks & last & Hloop).
    rewrite Hloop. cbn [bind].
    assert (Hz : Forall (fun x : nat * text => 0 <= fst x) (b :: breaks))
      by (apply Forall_forall; intros; lia).
    assert (T : exists tail_sp,
      linked html last (final_chunks html (length (b :: breaks)) last) tail_sp).
    { unfold final_chunks. destruct (slice_from html last) as [|c rest] eqn:Hf.
      - exists []. exact I.
      - exists [(last, length html)]. unfold slice_from in Hf.
        assert (last < length html).
        { destruct (Nat.lt_ge_cases last (length html)) as [|Hge]; [assumption|].
          apply skipn_all2 in Hge. rewrite Hge in Hf. discriminate. }
        simpl. unfold slice. rewrite Hf, <- Hf.
        rewrite firstn_all2 by (rewrite length_skipn; lia).
        repeat split; auto; lia. }
    destruct T as [tail_sp T].
    destruct (@chunk_loop_linked html _ _ _ _ _ Hin Hs Hz Hloop _ _ T) as [sp Hsp].
    eauto.
Qed.

(** C4 (no-break identity): when the locator finds no break, the result is
    the single chunk with the whole text, page 1, no break before it and
    the ['No breaks found'] mark. *)
Theorem no_break_identity html :
  break_positions html = [] ->
  split_html_by_regex html =
  Ok [ {| page := 1; content := html; has_break_before := false;
          info := NoBreaksFound |} ].
Proof. unfold split_html_by_regex. now intros ->. Qed.

Lemma no_break_identity_witness :
  break_positions single_page = [] /\
  split_html_by_regex single_page =
  Ok [ {| page := 1; content := single_page; has_break_before := false;
          info := NoBreaksFound |} ].
Proof.
  assert (H : break_positions single_page = []) by (vm_compute; reflexivity).
  split; [exact H|exact (@no_break_identity single_page H)].
Defined.

(** C5 (avoidance precedence): every tag the scan reports carries a
    trigger pattern; when it also carries an avoidance pattern, anywhere
    between its [<] and [>], no break is recorded at its offset, and when it
    carries none the tag is recorded as a break. *)
Theorem avoidance_precedence html p m :
  In (p, m) (finditer tag_pattern html) ->
  carries page_break_patterns (group1 m) /\
  (carries break_avoidance_patterns (group1 m) ->
   ~ In p (map fst (break_positions html))) /\
  (~ carries break_avoidance_patterns (group1 m) ->
   In (p, m) (break_positions html)).
Proof.
  intros Hin. rewrite break_positions_eq. unfold find_breaks.
  pose proof Hin as Hm. apply finditer_from_In in Hm as (_ & _ & Hm & E).
  apply match_at_Some in Hm as [_ M]. rewrite <- E in M.
  destruct (tag_pattern_shape M) as (inside & -> & Mi).
  rewrite group1_shape. repeat split.
  - now apply tag_inside_carries.
  - intros Hav Hp. apply in_map_iff in Hp as ([p' m'] & Ep & Hf).
    simpl in Ep. subst p'. apply filter_In in Hf as [Hf Hno]. simpl in Hno.
    assert (m' = lt_sign :: inside ++ [gt_sign]) as ->.
    { eapply sorted_fst_unique; eauto.
      apply (finditer_from_sorted tag_pattern html 0 0). }
    rewrite group1_shape in Hno. apply avoided_iff in Hav.
    rewrite Hav in Hno. discriminate.
  - intros Hno. apply filter_In. split; [assumption|]. simpl.
    rewrite group1_shape. destruct (avoided inside) eqn:Hav; [|reflexivity].
    apply avoided_iff in Hav. contradiction.
Qed.

Lemma avoidance_precedence_witness :
  In (28, avoided_tag) (finditer tag_pattern three_tags) /\
  (carries page_break_patterns (group1 avoided_tag) /\
   (carries break_avoidance_patterns (group1 avoided_tag) ->
    ~ In 28 (map fst (break_positions three_tags))) /\
   (~ carries break_avoidance_patterns (group1 avoided_tag) ->
    In (28, avoided_tag) (break_positions three_tags))).
Proof.
  assert (H : In (28, avoided_tag) (finditer tag_pattern three_tags))
    by (vm_compute; right; left; reflexivity).
  split; [exact H|exact (@avoidance_precedence three_tags 28 avoided_tag H)].
Defined.

(** C6 (page numbering): for every text the chunks are numbered 1, 2, ...,
    K, where K >= 1 is their number, and [has_break_before] is false for
    the first and true for all the others. *)
Theorem page_numbering html :
  exists cs, split_html_by_regex html = Ok cs /\ cs <> [] /\
    map page cs = seq 1 (length cs) /\
    map has_break_before cs = all_but_first (length cs).
Proof.
  destruct (split_total html) as [cs H]. exists cs. split; [assumption|].
  exact (@segment_pages html (break_positions html) cs H).
Qed.

(** C7 (final chunk): after a loop over N >= 1 breaks that ends with
    [last_pos = last], which is the offset of the last break, the result is
    the N chunks of the loop followed by the final chunk (content
    [html[last:]], page N+1, a break before it, the ['Final chunk'] mark)
    exactly when [html[last:]] is not empty, and the N chunks alone exactly
    when it is empty. *)
Theorem final_chunk_iff html breaks chunks last :
  breaks <> [] ->
  chunk_loop html breaks 1 0 = Ok (chunks, last) ->
  last = List.last (map fst breaks) 0 /\ length chunks = length breaks /\
  (segment html breaks =
     Ok (chunks ++ [ {| page := length breaks + 1;
                        content := slice_from html last;
                        has_break_before := true; info := FinalChunk |} ])
   <-> slice_from html last <> []) /\
  (segment html breaks = Ok chunks <-> slice_from html last = []).
Proof.
  intros Hne Hloop.
  destruct (chunk_loop_pages _ _ _ _ Hloop) as (Hl & Hlen & _).
  assert (Hgrow : forall c, Ok chunks <> Ok (chunks ++ [c])).
  { intros c [= E]. apply (f_equal (@length chunk)) in E.
    rewrite length_app in E. simpl in E. lia. }
  rewrite (@segment_after_loop html _ _ _ Hne Hloop).
  destruct (final_chunks_cases html (length breaks) last) as [[Hf ->]|[Hf ->]].
  - rewrite app_nil_r. repeat split; auto.
    + intros E. now apply Hgrow in E.
    + intros E. now contradiction E.
  - repeat split; auto.
    + intros E. symmetry in E. now apply Hgrow in E.
    + intros E. contradiction.
Qed.

Lemma final_chunk_iff_witness :
  (break_positions blank_before_break <> [] /\
   chunk_loop blank_before_break (break_positions blank_before_break) 1 0
   = Ok ([chunk_x], 2)) /\
  (segment blank_before_break (break_positions blank_before_break) =
     Ok ([chunk_x] ++
         [ {| page := length (break_positions blank_before_break) + 1;
              content := slice_from blank_before_break 2;
              has_break_before := true; info := FinalChunk |} ])
   <-> slice_from blank_before_break 2 <> []).
Proof.
  assert (H1 : break_positions blank_before_break <> [])
    by (vm_compute; discriminate).
  assert (H2 : chunk_loop blank_before_break
                 (break_positions blank_before_break) 1 0 = Ok ([chunk_x], 2))
    by (vm_compute; reflexivity).
  split; [now split|].
  exact (proj1 (proj2 (proj2 (@final_chunk_iff _ _ _ _ H1 H2)))).
Defined.

Section ProcessFileFacts.
Variables suffix stem lower : text -> text.
Variable json_dump : output_data -> text.

(** C8 (rejected inputs): for a path that does not exist [process_file]
    raises [FileNotFoundError], and for an existing path whose suffix,
    in lower case, is neither [.html] nor [.htm] it raises [ValueError];
    in both cases the only access made is the existence test: the file is
    not opened for reading, nothing is opened for writing and the files
    are as before. *)
Theorem process_file_rejects input_file output_file w :
  (files w input_file = None ->
   process_file suffix stem lower json_dump input_file output_file w =
   (Raise (FileNotFoundError (str "Input file not found: " ++ input_file)),
    {| files := files w; trace := trace w ++ [PathExists input_file] |})) /\
  (files w input_file <> None ->
   existsb (text_eqb (lower (suffix input_file))) [str ".html"; str ".htm"]
     = false ->
   process_file suffix stem lower json_dump input_file output_file w =
   (Raise (ValueError (str "Input file must be an HTML or HTM file")),
    {| files := files w; trace := trace w ++ [PathExists input_file] |})).
Proof.
  unfold process_file, log. cbn [files]. split.
  - intros ->. reflexivity.
  - intros Hex Hsuf. destruct (files w input_file); [|contradiction].
    rewrite Hsuf. reflexivity.
Qed.
End ProcessFileFacts.

Lemma process_file_rejects_witness :
  (files one_file (str "missing.html") = None /\
   process_file from_last_dot (fun p => p) (fun p => p) (fun _ => [])
     (str "missing.html") None one_file =
   (Raise (FileNotFoundError (str "Input file not found: missing.html")),
    {| files := files one_file;
       trace := [PathExists (str "missing.html")] |})) /\
  (files one_file (str "notes.txt") <> None /\
   existsb (text_eqb (from_last_dot (str "notes.txt")))
     [str ".html"; str ".htm"] = false /\
   process_file from_last_dot (fun p => p) (fun p => p) (fun _ => [])
     (str "notes.txt") None one_file =
   (Raise (ValueError (str "Input file must be an HTML or HTM file")),
    {| files := files one_file; trace := [PathExists (str "notes.txt")] |})).
Proof.
  assert (H1 : files one_file (str "missing.html") = None) by reflexivity.
  assert (H2 : files one_file (str "notes.txt") <> None)
    by (vm_compute; discriminate).
  assert (H3 : existsb (text_eqb (from_last_dot (str "notes.txt")))
                 [str ".html"; str ".htm"] = false)
    by (vm_compute; reflexivity).
  split.
  - split; [exact H1|].
    exact (proj1 (@process_file_rejects from_last_dot (fun p => p) (fun p => p)
                    (fun _ => []) (str "missing.html") None one_file) H1).
  - split; [exact H2|]. split; [exact H3|].
    exact (proj2 (@process_file_rejects from_last_dot (fun p => p) (fun p => p)
                    (fun _ => []) (str "notes.txt") None one_file) H2 H3).
Defined.

(** C9 (N breaks, N+1 chunks): every recorded break is the offset of a [<]
    of the text, so what follows the last break is not empty, and when the
    locator finds N >= 1 breaks the result is N chunks followed by the
    final chunk. *)
Theorem breaks_give_final_chunk html :
  break_positions html <> [] ->
  Forall (fun b => nth_error html (fst b) = Some lt_sign) (break_positions html) /\
  exists chunks final,
    final <> [] /\ length chunks = length (break_positions html) /\
    split_html_by_regex html =
    Ok (chunks ++ [ {| page := length (break_positions html) + 1;
                       content := final;
                       has_break_before := true; info := FinalChunk |} ]).
Proof.
  intros Hne. split.
  - apply Forall_forall. intros [p m] H.
    now apply break_positions_In in H as (_ & _ & _ & Hlt & _).
  - destruct (@chunk_loop_total html _ 1 0 (break_positions_inside html))
      as (chunks & last & Hloop).
    destruct (chunk_loop_pages _ _ _ _ Hloop) as (Hl & Hlen & _).
    pose proof (@text_after_last_break html Hne) as Hfinal. rewrite <- Hl in Hfinal.
    exists chunks, (slice_from html last). repeat split; auto.
    unfold split_html_by_regex. rewrite (@segment_after_loop html _ _ _ Hne Hloop).
    destruct (final_chunks_cases html (length (break_positions html)) last)
      as [[Hf _]|[_ ->]]; [contradiction|reflexivity].
Qed.

Lemma breaks_give_final_chunk_witness :
  break_positions blank_before_break <> [] /\
  (Forall (fun b => nth_error blank_before_break (fst b) = Some lt_sign)
     (break_positions blank_before_break) /\
   exists chunks final,
     final <> [] /\
     length chunks = length (break_positions blank_before_break) /\
     split_html_by_regex blank_before_break =
     Ok (chunks ++ [ {| page := length (break_positions blank_before_break) + 1;
                        content := final;
                        has_break_before := true; info := FinalChunk |} ])).
Proof.
  assert (H : break_positions blank_before_break <> [])
    by (vm_compute; discriminate).
  split; [exact H|exact (@breaks_give_final_chunk blank_before_break H)].
Defined.

(** C10 (only white space before the first break): when every character
    before the first break is a blank, a tab, a line feed or a carriage
    return, which includes a first break at offset 0, the first chunk has
    page 1, no break before it and the empty text as content. *)
Theorem blank_prefix_gives_empty_first_chunk html bp bt rest :
  break_positions html = (bp, bt) :: rest ->
  forallb is_trailing_ws (firstn bp html) = true ->
  exists others,
    split_html_by_regex html =
    Ok ({| page := 1; content := []; has_break_before := false;
           info := BreakElement (firstn 200 bt) bp |} :: others).
Proof.
  intros E Hws.
  pose proof (break_positions_inside html) as Hin. rewrite E in Hin.
  destruct (@chunk_loop_total html _ 1 0 Hin) as (chunks & last & Hloop).
  unfold split_html_by_regex, segment. rewrite E, Hloop. cbn [bind].
  inversion Hin as [|? ? Hbp _]; subst. simpl in Hbp.
  cbn [chunk_loop] in Hloop.
  rewrite (@walk_back_all_ws html _ Hbp Hws) in Hloop. cbn [bind] in Hloop.
  destruct (chunk_loop html rest 2 bp) as [[cs l]|e]; [|discriminate].
  cbn [bind] in Hloop. injection Hloop as <- <-.
  rewrite slice_empty. change (1 <? 1) with false.
  eexists. cbn [app]. reflexivity.
Qed.

Lemma blank_prefix_gives_empty_first_chunk_witness :
  (break_positions break_after_blanks = [(2, break_tag)] /\
   forallb is_trailing_ws (firstn 2 break_after_blanks) = true) /\
  exists others,
    split_html_by_regex break_after_blanks =
    Ok ({| page := 1; content := []; has_break_before := false;
           info := BreakElement (firstn 200 break_tag) 2 |} :: others).
Proof.
  assert (H1 : break_positions break_after_blanks = [(2, break_tag)])
    by (vm_compute; reflexivity).
  assert (H2 : forallb is_trailing_ws (firstn 2 break_after_blanks) = true)
    by reflexivity.
  split; [now split|].
  exact (@blank_prefix_gives_empty_first_chunk break_after_blanks _ _ _ H1 H2).
Defined.

End Claims.

(** * Further properties of the code *)

Module Extras.
Import Re ReFacts ScanFacts LocatorFacts SegmentFacts Claims.

(** ** The locator *)

(** A reported match ends before the next one starts. *)
Lemma finditer_from_apart r : forall s pos skip,
  StronglySorted apart (finditer_from r pos skip s).
Proof.
  induction s as [|x s IH]; simpl; intros pos skip; [constructor|].
  destruct skip as [|n]; [|apply IH].
  destruct (match_at r (x :: s)) as [len|] eqn:Hm; [|apply IH].
  constructor; [apply IH|].
  apply Forall_forall. intros [p m] H.
  apply finditer_from_In in H as (Hp & _). unfold apart. cbn [fst snd].
  pose proof (firstn_le_length len (x :: s)) as Hle.
  destruct len; [rewrite firstn_0; simpl; lia|]. simpl in Hp. lia.
Qed.

Lemma find_breaks_apart html : StronglySorted apart (find_breaks html).
Proof. apply sorted_filter, finditer_from_apart. Qed.

(** A recorded break, in full: where its tag lies in the text and what the
    tag looks like. *)
Lemma break_in_text html p m :
  In (p, m) (break_positions html) ->
  m = slice html p (p + length m) /\ p + length m <= length html /\
  exists inside, m = lt_sign :: inside ++ [gt_sign] /\
    matches tag_inside inside /\ avoided inside = false.
Proof.
  rewrite break_positions_eq. unfold find_breaks. intros H.
  apply filter_In in H as [H Hav]. cbn [snd] in Hav.
  apply finditer_from_In in H as (_ & _ & Hm & E).
  rewrite Nat.sub_0_r in Hm, E.
  apply match_at_Some in Hm as [Hlen M]. rewrite <- E in M.
  rewrite length_skipn in Hlen.
  destruct (tag_pattern_shape M) as (inside & Em & Mi).
  assert (Hpos : 0 < length m) by (rewrite Em; simpl; lia).
  repeat split.
  - unfold slice. now replace (p + length m - p) with (length m) by lia.
  - lia.
  - exists inside. repeat split; auto.
    rewrite Em, group1_shape in Hav. now apply negb_true_iff.
Qed.

Lemma occurs_inside r pre mid post :
  occurs r mid -> occurs r (pre ++ mid ++ post).
Proof.
  intros (a & b & c & -> & M). exists (pre ++ a), b, (c ++ post).
  split; [now rewrite <- !app_assoc|assumption].
Qed.

Lemma slice_split (s : text) a b :
  a <= b -> b <= length s -> s = firstn a s ++ slice s a b ++ skipn b s.
Proof.
  intros Hab Hb. unfold slice.
  rewrite <- (firstn_skipn a s) at 1. f_equal.
  rewrite <- (firstn_skipn (b - a) (skipn a s)) at 1. f_equal.
  rewrite skipn_skipn. f_equal. lia.
Qed.

(** X1.  A recorded break is a tag of the text, copied as it stands: it
    lies inside the text at its offset, runs from a [<] to a [>], carries a
    trigger pattern in between and carries no avoidance pattern there. *)
Theorem recorded_break_is_trigger_tag html p m :
  In (p, m) (break_positions html) ->
  m = slice html p (p + length m) /\ p + length m <= length html /\
  exists inside, m = lt_sign :: inside ++ [gt_sign] /\
    carries page_break_patterns inside /\
    ~ carries break_avoidance_patterns inside.
Proof.
  intros H. destruct (break_in_text _ _ _ H) as (Es & Hlen & inside & Em & Mi & Hav).
  repeat split; auto. exists inside. repeat split; auto.
  - now apply tag_inside_carries.
  - intros Hc. apply avoided_iff in Hc. rewrite Hc in Hav. discriminate.
Qed.

Lemma recorded_break_is_trigger_tag_witness :
  In (2, break_tag) (break_positions blank_before_break) /\
  (break_tag = slice blank_before_break 2 (2 + length break_tag) /\
   2 + length break_tag <= length blank_before_break /\
   exists inside, break_tag = lt_sign :: inside ++ [gt_sign] /\
     carries page_break_patterns inside /\
     ~ carries break_avoidance_patterns inside).
Proof.
  assert (H : In (2, break_tag) (break_positions blank_before_break))
    by (vm_compute; left; reflexivity).
  split; [exact H|exact (@recorded_break_is_trigger_tag _ _ _ H)].
Defined.

(** X2.  The sort of line 68 never moves anything: the breaks are found by
    strictly increasing offset, and each tag ends before the next break
    starts. *)
Theorem breaks_found_in_order html :
  break_positions html = find_breaks html /\
  StronglySorted before (break_positions html) /\
  StronglySorted apart (break_positions html).
Proof.
  rewrite break_positions_eq. repeat split.
  - apply find_breaks_sorted.
  - apply find_breaks_apart.
Qed.

(** X3.  A text in which no trigger pattern occurs comes back as a single
    chunk holding the whole text. *)
Theorem no_trigger_one_chunk html :
  ~ carries page_break_patterns html ->
  split_html_by_regex html =
  Ok [ {| page := 1; content := html; has_break_before := false;
          info := NoBreaksFound |} ].
Proof.
  intros Hno. unfold split_html_by_regex.
  destruct (break_positions html) as [|[p m] rest] eqn:E; [reflexivity|].
  exfalso. apply Hno.
  assert (H : In (p, m) (break_positions html)) by (rewrite E; now left).
  destruct (break_in_text _ _ _ H) as (Es & Hlen & inside & Em & Mi & _).
  destruct (tag_inside_carries Mi) as (pat & Hpat & Hocc).
  exists pat. split; [assumption|].
  rewrite (@slice_split html p (p + length m)) by lia.
  rewrite <- Es, Em.
  change (lt_sign :: inside ++ [gt_sign]) with ([lt_sign] ++ inside ++ [gt_sign]).
  rewrite <- !app_assoc. rewrite app_assoc.
  now apply occurs_inside.
Qed.

Lemma no_trigger_one_chunk_witness :
  ~ carries page_break_patterns single_page /\
  split_html_by_regex single_page =
  Ok [ {| page := 1; content := single_page; has_break_before := false;
          info := NoBreaksFound |} ].
Proof.
  assert (H : ~ carries page_break_patterns single_page).
  { intros Hc. apply occurs_alternation in Hc; [|discriminate].
    apply search_occurs in Hc as [x Hx]. vm_compute in Hx. discriminate. }
  split; [exact H|exact (@no_trigger_one_chunk _ H)].
Defined.

(** ** Slices and the walk back *)

Lemma slice_app (s : text) a b c :
  a <= b -> b <= c -> slice s a c = slice s a b ++ slice s b c.
Proof.
  intros Hab Hbc. unfold slice.
  replace (c - a) with ((b - a) + (c - b)) by lia.
  rewrite <- (firstn_skipn (b - a) (skipn a s)) at 1.
  rewrite firstn_app, length_firstn, length_skipn.
  destruct (Nat.le_ge_cases (b - a) (length s - a)) as [H|H].
  - rewrite Nat.min_l by assumption.
    replace (b - a + (c - b) - (b - a)) with (c - b) by lia.
    rewrite firstn_firstn, Nat.min_r by lia.
    rewrite skipn_skipn. now replace (b - a + a) with b by lia.
  - rewrite Nat.min_r by assumption.
    rewrite firstn_firstn, Nat.min_r by lia.
    rewrite skipn_skipn.
    rewrite (skipn_all2 (n := b - a + a)) by lia.
    rewrite (skipn_all2 (n := b)) by lia.
    now rewrite !firstn_nil.
Qed.

Lemma slice_length (s : text) a b :
  b <= length s -> length (slice s a b) = b - a.
Proof.
  intros Hb. unfold slice. rewrite length_firstn, length_skipn. lia.
Qed.

Lemma slice_to_end (s : text) a : slice s a (length s) = skipn a s.
Proof.
  unfold slice. apply firstn_all2. rewrite length_skipn. lia.
Qed.

Lemma slice_whole (s : text) : slice s 0 (length s) = s.
Proof. now rewrite slice_to_end. Qed.

Lemma slice_nth (s : text) a b q f :
  forallb f (slice s a b) = true -> a <= q < b ->
  forall c, nth_error s q = Some c -> f c = true.
Proof.
  intros Hall Hq c Hc.
  rewrite (@slice_app s a q b), forallb_app in Hall by lia.
  apply andb_true_iff in Hall as [_ Hall].
  rewrite (@slice_app s q (S q) b), forallb_app in Hall by lia.
  apply andb_true_iff in Hall as [Hall _].
  rewrite (@slice_snoc s q q c), slice_empty in Hall by (auto; lia).
  simpl in Hall. now rewrite andb_true_r in Hall.
Qed.

Lemma ends_in_ws_snoc (t : text) c : ends_in_ws (t ++ [c]) = is_trailing_ws c.
Proof. unfold ends_in_ws. now rewrite rev_app_distr. Qed.

(** The walk back of the loop, from a break inside the text that lies
    after [last_pos] (or at offset 0 for both): it stays put exactly when no blank
    precedes the break, and what it leaves for the chunk does not end in a
    blank. *)
Lemma walk_back_cases html last_pos bp :
  bp <= length html -> last_pos < bp \/ (last_pos = 0 /\ bp = 0) ->
  exists t, walk_back html last_pos bp = Ok t /\ last_pos <= t /\ t <= bp /\
    forallb is_trailing_ws (slice html t bp) = true /\
    (blank_before html bp = false -> t = bp) /\
    (blank_before html bp = true -> t < bp) /\
    ends_in_ws (slice html last_pos t) = false.
Proof.
  intros Hlen Hpos.
  destruct (walk_back_ok html last_pos Hlen) as (t & Ht & Hle & Hge & Hall & Hstop).
  exists t. split; [assumption|].
  assert (Hlast : last_pos <= t).
  { destruct Hpos as [Hpos|[-> ->]]; [apply Hge; lia|lia]. }
  repeat split; auto.
  - intros Hb. destruct (Nat.eq_dec t bp) as [|Hne]; [assumption|exfalso].
    destruct bp as [|q]; [lia|]. simpl in Hb.
    destruct (nth_error html q) as [c|] eqn:Hc;
      [|apply nth_error_None in Hc; lia].
    rewrite (@slice_nth html t (S q) q is_trailing_ws Hall) with (c := c) in Hb;
      [discriminate|lia|assumption].
  - intros Hb. destruct (Nat.eq_dec t bp) as [->|Hne]; [exfalso|lia].
    destruct bp as [|q]; [discriminate|]. simpl in Hb.
    destruct Hpos as [Hpos|[_ Hz]]; [|discriminate].
    destruct (Hstop Hpos) as (c & Hc & Hws). simpl in Hc.
    rewrite Nat.sub_0_r in Hc. rewrite Hc, Hws in Hb. discriminate.
  - destruct (Nat.eq_dec last_pos t) as [->|Hne]; [now rewrite slice_empty|].
    destruct (Hstop ltac:(lia)) as (c & Hc & Hws).
    destruct t as [|q]; [lia|]. simpl in Hc. rewrite Nat.sub_0_r in Hc.
    rewrite (@slice_snoc html last_pos q c) by (auto; lia).
    now rewrite ends_in_ws_snoc.
Qed.

(** ** [reconstruct] on chunks in page order *)

Lemma fold_left_contents cs : forall acc,
  fold_left (fun html_content c => html_content ++ content c) cs acc
  = acc ++ concat (map content cs).
Proof.
  induction cs as [|c cs IH]; intros acc; simpl.
  - now rewrite app_nil_r.
  - now rewrite IH, app_assoc.
Qed.

Lemma pages_in_order cs : forall n k,
  map page cs = seq n k ->
  StronglySorted (fun a b => page a <= page b) cs.
Proof.
  induction cs as [|c cs IH]; intros n k H; [constructor|].
  destruct k as [|k]; [discriminate|]. simpl in H. injection H as Hc Hcs.
  constructor; [now apply (IH (S n) k)|].
  apply Forall_forall. intros c' Hin.
  apply (in_map page) in Hin. rewrite Hcs in Hin. apply in_seq in Hin. lia.
Qed.

(** On chunks numbered in order the sort of line 165 changes nothing and
    the result is the contents end to end. *)
Lemma reconstruct_in_order cs n k :
  map page cs = seq n k -> reconstruct cs = concat (map content cs).
Proof.
  intros H. unfold reconstruct.
  rewrite (sort_by_sorted page (pages_in_order _ _ _ H)).
  apply (fold_left_contents cs []).
Qed.

(** ** The loop, one break at a time *)

Lemma ready_start html : ready html 0 (break_positions html).
Proof.
  repeat split.
  - lia.
  - apply Forall_forall. intros [p m] H.
    destruct (break_in_text _ _ _ H) as (Es & Hlen & inside & Em & _).
    repeat split; eauto.
  - rewrite break_positions_eq. apply find_breaks_apart.
  - apply Forall_forall. intros [p m] _. cbn [fst]. lia.
Qed.

Lemma ready_tail html last_pos bp bt rest :
  ready html last_pos ((bp, bt) :: rest) -> ready html bp rest.
Proof.
  intros (Hl & Ht & Hs & Hf).
  inversion Ht as [|? ? (Es & Hlen & inside & Em) Ht']; subst.
  inversion Hs as [|? ? Hs' Hap]; subst. cbn [fst snd] in *.
  repeat split; auto; [lia|].
  rewrite Forall_forall in Hap |- *. intros b Hb. apply Hap in Hb.
  unfold apart in Hb. cbn [fst snd] in Hb.
  rewrite Em in Hb. simpl in Hb. lia.
Qed.

(** One turn of the loop. *)
Lemma loop_step html last_pos bp bt rest page_num chunks last :
  ready html last_pos ((bp, bt) :: rest) ->
  chunk_loop html ((bp, bt) :: rest) page_num last_pos = Ok (chunks, last) ->
  exists t cs,
    chunks = {| page := page_num; content := slice html last_pos t;
                has_break_before := 1 <? page_num;
                info := BreakElement (firstn 200 bt) bp |} :: cs /\
    chunk_loop html rest (S page_num) bp = Ok (cs, last) /\
    last_pos <= t /\ t <= bp /\ bp <= length html /\
    forallb is_trailing_ws (slice html t bp) = true /\
    (blank_before html bp = false -> t = bp) /\
    (blank_before html bp = true -> t < bp) /\
    ends_in_ws (slice html last_pos t) = false.
Proof.
  intros (Hl & Ht & Hs & Hf) Hloop.
  inversion Ht as [|? ? (Es & Hlen & inside & Em) _]; subst.
  inversion Hf as [|? ? Hpos _]; subst. cbn [fst snd] in *.
  assert (Hbp : bp <= length html) by lia.
  destruct (@walk_back_cases html _ _ Hbp Hpos)
    as (t & Hw & H1 & H2 & H3 & H4 & H5 & H6).
  cbn [chunk_loop] in Hloop. rewrite Hw in Hloop. cbn [bind] in Hloop.
  destruct (chunk_loop html rest (S page_num) bp) as [[cs l]|e];
    [|discriminate].
  cbn [bind] in Hloop. injection Hloop as <- <-.
  exists t, cs. repeat split; auto.
Qed.

Lemma loop_last html : forall breaks page_num last_pos chunks last,
  ready html last_pos breaks ->
  chunk_loop html breaks page_num last_pos = Ok (chunks, last) ->
  last_pos <= last <= length html.
Proof.
  induction breaks as [|[bp bt] rest IH]; intros page_num last_pos chunks last R H.
  - simpl in H. injection H as <- <-. destruct R as (Hl & _). lia.
  - destruct (@loop_step _ _ _ _ _ _ _ _ R H) as (t & cs & _ & Hrest & H1 & H2 & _).
    pose proof (IH _ _ _ _ (@ready_tail _ _ _ _ _ R) Hrest). lia.
Qed.

(** The contents of the chunks of the loop, end to end, against the text
    between where the loop started and where it stopped: the same but for
    blanks; the very same when no blank precedes a break, and shorter
    otherwise. *)
Lemma loop_contents html : forall breaks page_num last_pos chunks last,
  ready html last_pos breaks ->
  chunk_loop html breaks page_num last_pos = Ok (chunks, last) ->
  without_ws (concat (map content chunks))
  = without_ws (slice html last_pos last) /\
  (no_blank_before html breaks = true ->
   concat (map content chunks) = slice html last_pos last) /\
  (no_blank_before html breaks = false ->
   length (concat (map content chunks)) < last - last_pos) /\
  length (concat (map content chunks)) <= last - last_pos.
Proof.
  unfold without_ws.
  induction breaks as [|[bp bt] rest IH]; intros page_num last_pos chunks last R H.
  - simpl in H. injection H as <- <-. rewrite slice_empty. simpl.
    repeat split; auto; [discriminate|lia].
  - destruct (@loop_step _ _ _ _ _ _ _ _ R H)
      as (t & cs & -> & Hrest & H1 & H2 & Hbp & Hws & Hstay & Hmove & _).
    destruct (IH _ _ _ _ (@ready_tail _ _ _ _ _ R) Hrest) as (IHw & IHe & IHl & IHle).
    destruct (@loop_last _ _ _ _ _ _ (@ready_tail _ _ _ _ _ R) Hrest) as [Hbl Hll].
    cbn [map concat content no_blank_before forallb fst].
    fold (no_blank_before html rest).
    rewrite (@slice_app html last_pos bp last) by lia.
    rewrite (@slice_app html last_pos t bp) by lia.
    rewrite !length_app, !filter_app, IHw.
    rewrite (slice_length html last_pos) by lia.
    assert (Hgap : filter (fun c => negb (is_trailing_ws c)) (slice html t bp) = []).
    { clear - Hws. induction (slice html t bp) as [|c l IHl]; [reflexivity|].
      simpl in *. apply andb_true_iff in Hws as [-> Hws]. simpl. auto. }
    rewrite Hgap, app_nil_r. repeat split; auto.
    + intros Hno. apply andb_true_iff in Hno as [Hb Hno].
      apply negb_true_iff in Hb. rewrite (Hstay Hb), slice_empty, app_nil_r.
      now rewrite (IHe Hno).
    + intros Hno. apply andb_false_iff in Hno as [Hb|Hno].
      * apply negb_false_iff in Hb. specialize (Hmove Hb). lia.
      * specialize (IHl Hno). lia.
    + lia.
Qed.

Lemma final_chunks_content html n last :
  concat (map content (final_chunks html n last)) = slice_from html last.
Proof.
  destruct (final_chunks_cases html n last) as [[-> ->]|[_ ->]];
    simpl; [reflexivity|apply app_nil_r].
Qed.

(** What [split_html_by_regex] returns when there are breaks: the chunks of
    the loop and the final chunks. *)
Lemma split_with_breaks html :
  break_positions html <> [] ->
  exists chunks last,
    chunk_loop html (break_positions html) 1 0 = Ok (chunks, last) /\
    split_html_by_regex html =
    Ok (chunks ++ final_chunks html (length (break_positions html)) last).
Proof.
  intros Hne.
  destruct (@chunk_loop_total html _ 1 0 (break_positions_inside html))
    as (chunks & last & Hloop).
  exists chunks, last. split; [assumption|].
  apply (@segment_after_loop html _ _ _ Hne Hloop).
Qed.

(** What [reconstruct] makes of the chunks of a text. *)
Lemma reconstruct_split html cs :
  split_html_by_regex html = Ok cs -> reconstruct cs = concat (map content cs).
Proof.
  intros H. destruct (@segment_pages html _ cs H) as (_ & Hp & _).
  apply (@reconstruct_in_order cs _ _ Hp).
Qed.

(** The reconstruction of the chunks of a text: the contents of the
    chunks of the loop, then the text from the last break on. *)
Lemma reconstruct_shape html :
  exists cs chunks last,
    split_html_by_regex html = Ok cs /\
    chunk_loop html (break_positions html) 1 0 = Ok (chunks, last) /\
    reconstruct cs = concat (map content chunks) ++ slice_from html last.
Proof.
  destruct (break_positions html) as [|b breaks] eqn:E.
  - eexists _, [], 0. unfold split_html_by_regex. rewrite E.
    split; [reflexivity|]. split; reflexivity.
  - assert (Hne : break_positions html <> []) by (rewrite E; discriminate).
    destruct (@split_with_breaks html Hne) as (chunks & last & Hloop & Hsplit).
    rewrite E in Hloop. eexists _, chunks, last.
    split; [exact Hsplit|]. split; [exact Hloop|].
    rewrite (@reconstruct_split html _ Hsplit), map_app, concat_app.
    now rewrite final_chunks_content.
Qed.

Lemma text_around html last :
  html = slice html 0 last ++ slice_from html last.
Proof.
  unfold slice, slice_from. rewrite Nat.sub_0_r. simpl.
  symmetry. apply firstn_skipn.
Qed.

(** ** Splitting and reconstructing *)

(** X4.  Splitting a text and concatenating the chunks gives the text back
    exactly when no recorded break has a blank, tab, line feed or carriage
    return right in front of its tag. *)
Theorem roundtrip_exact_iff html :
  exists cs, split_html_by_regex html = Ok cs /\
    (reconstruct cs = html <->
     no_blank_before html (break_positions html) = true).
Proof.
  destruct (reconstruct_shape html) as (cs & chunks & last & Hs & Hloop & Hr).
  exists cs. split; [assumption|].
  destruct (@loop_contents html _ _ _ _ _ (ready_start html) Hloop) as (_ & Hexact & Hshort & _).
  destruct (@loop_last _ _ _ _ _ _ (ready_start html) Hloop) as [_ Hlast].
  rewrite Hr. split.
  - intros Heq.
    destruct (no_blank_before html (break_positions html)); [reflexivity|].
    specialize (Hshort eq_refl). apply (f_equal (@length char)) in Heq.
    rewrite length_app in Heq. unfold slice_from in Heq.
    rewrite length_skipn in Heq. lia.
  - intros Hno. rewrite (Hexact Hno). symmetry. apply text_around.
Qed.

(** X5.  Whatever the text, the reconstruction differs from it by blanks,
    tabs, line feeds and carriage returns only: with these characters taken
    out both are the same, and the reconstruction is never the longer. *)
Theorem roundtrip_keeps_all_but_blanks html :
  exists cs, split_html_by_regex html = Ok cs /\
    without_ws (reconstruct cs) = without_ws html /\
    length (reconstruct cs) <= length html.
Proof.
  destruct (reconstruct_shape html) as (cs & chunks & last & Hs & Hloop & Hr).
  exists cs. split; [assumption|].
  destruct (@loop_contents html _ _ _ _ _ (ready_start html) Hloop) as (Hw & _ & _ & Hle).
  destruct (@loop_last _ _ _ _ _ _ (ready_start html) Hloop) as [_ Hlast].
  rewrite Hr. split.
  - rewrite (text_around html last) at 2. unfold without_ws in *.
    now rewrite !filter_app, Hw.
  - rewrite length_app. unfold slice_from. rewrite length_skipn. lia.
Qed.

(** ** What the chunks look like *)

Lemma tag_ends_clean inside : ends_in_ws (lt_sign :: inside ++ [gt_sign]) = false.
Proof.
  change (lt_sign :: inside ++ [gt_sign]) with ((lt_sign :: inside) ++ [gt_sign]).
  now rewrite ends_in_ws_snoc.
Qed.

(** A walk back never enters a tag that ends right before it started. *)
Lemma walk_stops_after html last_pos t bp tag :
  tag = slice html last_pos (last_pos + length tag) ->
  ends_in_ws tag = false ->
  last_pos + length tag <= bp -> bp <= length html ->
  last_pos <= t ->
  forallb is_trailing_ws (slice html t bp) = true ->
  last_pos + length tag <= t.
Proof.
  intros Etag Hclean Hbp Hlen Ht Hws.
  destruct (length tag) as [|n] eqn:En; [lia|].
  destruct (Nat.le_gt_cases (last_pos + S n) t) as [|Hgt]; [assumption|exfalso].
  destruct (nth_error html (last_pos + n)) as [c|] eqn:Hc;
    [|apply nth_error_None in Hc; lia].
  replace (last_pos + S n) with (S (last_pos + n)) in Etag by lia.
  rewrite (@slice_snoc html last_pos (last_pos + n) c) in Etag by (auto; lia).
  rewrite Etag, ends_in_ws_snoc in Hclean.
  rewrite (@slice_nth html t bp (last_pos + n) is_trailing_ws Hws) with (c := c)
    in Hclean; [discriminate|lia|assumption].
Qed.

(** The chunks of the loop and the one after them, against the tag the
    loop started behind and the tags of the breaks: each begins with the
    tag before it. *)
Lemma loop_begins html : forall breaks page_num last_pos chunks last tag fin,
  ready html last_pos breaks ->
  chunk_loop html breaks page_num last_pos = Ok (chunks, last) ->
  tag = slice html last_pos (last_pos + length tag) ->
  last_pos + length tag <= length html ->
  ends_in_ws tag = false ->
  Forall (fun b => last_pos + length tag <= fst b) breaks ->
  content fin = slice_from html last ->
  Forall2 (fun c t => begins_with (content c) t)
          (chunks ++ [fin]) (tag :: map snd breaks).
Proof.
  induction breaks as [|[bp bt] rest IH];
    intros page_num last_pos chunks last tag fin R H Etag Hlen Hclean Hafter Hfin.
  - simpl in H. injection H as <- <-. constructor; [|constructor].
    exists (slice html (last_pos + length tag) (length html)).
    rewrite Hfin. unfold slice_from. rewrite <- slice_to_end.
    rewrite Etag at 1. apply slice_app; lia.
  - destruct (@loop_step _ _ _ _ _ _ _ _ R H)
      as (t & cs & -> & Hrest & H1 & H2 & Hbp & Hws & _).
    inversion Hafter as [|? ? Hfirst _]; subst. cbn [fst] in Hfirst.
    pose proof (@walk_stops_after html last_pos t bp tag Etag Hclean Hfirst Hbp H1 Hws)
      as Hstop.
    destruct R as (Hl & Htags & Hsorted & Hpos).
    inversion Htags as [|? ? (Es & Hin & inside & Em) Htags']; subst.
    inversion Hsorted as [|? ? Hsorted' Hap]; subst. cbn [fst snd] in *.
    cbn [app map snd]. constructor.
    + exists (slice html (last_pos + length tag) t). cbn [content].
      rewrite Etag at 1. apply slice_app; lia.
    + apply (IH (S page_num) bp cs last bt fin); auto.
      * apply (@ready_tail html last_pos bp bt rest).
        repeat split; auto.
      * rewrite Em. apply tag_ends_clean.
Qed.

(** X6.  There is one chunk more than there are breaks, and every chunk
    after the first begins with the whole tag of the break that opened it:
    chunk i+1 starts with the tag of break i. *)
Theorem chunk_begins_with_break_tag html :
  exists cs, split_html_by_regex html = Ok cs /\
    Forall2 (fun c tag => begins_with (content c) tag)
            cs ([] :: map snd (break_positions html)).
Proof.
  destruct (break_positions html) as [|b breaks] eqn:E.
  - eexists. unfold split_html_by_regex. rewrite E. split; [reflexivity|].
    constructor; [|constructor]. now exists html.
  - assert (Hne : break_positions html <> []) by (rewrite E; discriminate).
    destruct (@split_with_breaks html Hne) as (chunks & last & Hloop & Hsplit).
    destruct (chunk_loop_pages _ _ _ _ Hloop) as (Hl & _).
    pose proof (@text_after_last_break html Hne) as Hfinal. rewrite <- Hl in Hfinal.
    destruct (final_chunks_cases html (length (break_positions html)) last)
      as [[Hf _]|[_ Hfin]]; [contradiction|].
    rewrite Hfin in Hsplit. eexists. split; [exact Hsplit|]. rewrite <- E.
    apply (@loop_begins html (break_positions html) 1 0 chunks last []);
      auto.
    + apply ready_start.
    + simpl. lia.
    + apply Forall_forall. intros; simpl; lia.
Qed.

Lemma loop_ends_clean html : forall breaks page_num last_pos chunks last,
  ready html last_pos breaks ->
  chunk_loop html breaks page_num last_pos = Ok (chunks, last) ->
  Forall (fun c => ends_in_ws (content c) = false) chunks.
Proof.
  induction breaks as [|[bp bt] rest IH]; intros page_num last_pos chunks last R H.
  - simpl in H. injection H as <- <-. constructor.
  - destruct (@loop_step _ _ _ _ _ _ _ _ R H)
      as (t & cs & -> & Hrest & _ & _ & _ & _ & _ & _ & Hclean).
    constructor; [exact Hclean|].
    apply (IH _ _ _ _ (@ready_tail _ _ _ _ _ R) Hrest).
Qed.

(** X7.  No chunk but the last ends in a blank, a tab, a line feed or a
    carriage return: every chunk closed by a break has these trimmed off
    its end. *)
Theorem chunk_before_break_ends_clean html :
  exists cs, split_html_by_regex html = Ok cs /\
    Forall (fun c => ends_in_ws (content c) = false) (removelast cs).
Proof.
  destruct (break_positions html) as [|b breaks] eqn:E.
  - eexists. unfold split_html_by_regex. rewrite E. split; [reflexivity|].
    constructor.
  - assert (Hne : break_positions html <> []) by (rewrite E; discriminate).
    destruct (@split_with_breaks html Hne) as (chunks & last & Hloop & Hsplit).
    destruct (chunk_loop_pages _ _ _ _ Hloop) as (Hl & _).
    pose proof (@text_after_last_break html Hne) as Hfinal. rewrite <- Hl in Hfinal.
    destruct (final_chunks_cases html (length (break_positions html)) last)
      as [[Hf _]|[_ Hfin]]; [contradiction|].
    rewrite Hfin in Hsplit. eexists. split; [exact Hsplit|].
    rewrite removelast_last.
    apply (@loop_ends_clean html _ 1 0 chunks last (ready_start html) Hloop).
Qed.

Lemma loop_infos html : forall breaks page_num last_pos chunks last,
  chunk_loop html breaks page_num last_pos = Ok (chunks, last) ->
  map info chunks
  = map (fun b => BreakElement (firstn 200 (snd b)) (fst b)) breaks.
Proof.
  induction breaks as [|[bp bt] rest IH]; intros page_num last_pos chunks last H.
  - simpl in H. now injection H as <- <-.
  - cbn [chunk_loop] in H.
    destruct (walk_back html last_pos bp) as [t|e]; [|discriminate].
    cbn [bind] in H.
    destruct (chunk_loop html rest (S page_num) bp) as [[cs l]|e] eqn:Hrest;
      [|discriminate].
    cbn [bind] in H. injection H as <- <-.
    cbn [map info fst snd]. f_equal. apply (IH _ _ _ _ Hrest).
Qed.

(** X8.  What a chunk records about the break that closed it points into
    the text: the position is the offset of a [<] of the text, and the
    break text is at most 200 characters, copied from the text at that
    position. *)
Theorem break_info_points_at_tag html :
  exists cs, split_html_by_regex html = Ok cs /\
    Forall (fun c =>
      match info c with
      | BreakElement break_text position =>
          length break_text <= 200 /\
          nth_error html position = Some lt_sign /\
          begins_with (slice_from html position) break_text
      | _ => True
      end) cs.
Proof.
  destruct (break_positions html) as [|b breaks] eqn:E.
  - eexists. unfold split_html_by_regex. rewrite E. split; [reflexivity|].
    constructor; [exact I|constructor].
  - assert (Hne : break_positions html <> []) by (rewrite E; discriminate).
    destruct (@split_with_breaks html Hne) as (chunks & last & Hloop & Hsplit).
    eexists. split; [exact Hsplit|]. apply Forall_app. split.
    + pose proof (loop_infos _ _ _ _ Hloop) as Hinfo.
      apply Forall_forall. intros c Hc.
      apply (in_map info) in Hc. rewrite Hinfo in Hc.
      apply in_map_iff in Hc as ([p m] & <- & Hin). cbn [fst snd].
      destruct (break_positions_In _ _ _ Hin) as (_ & _ & _ & Hlt & _).
      destruct (break_in_text _ _ _ Hin) as (Es & _).
      repeat split.
      * apply firstn_le_length.
      * assumption.
      * exists (skipn 200 m ++ skipn (p + length m) html).
        rewrite app_assoc, firstn_skipn. unfold slice_from.
        rewrite Es at 1. unfold slice.
        replace (p + length m - p) with (length m) by lia.
        rewrite <- (firstn_skipn (length m) (skipn p html)) at 1.
        now rewrite skipn_skipn, (Nat.add_comm (length m) p).
    + destruct (final_chunks_cases html (length (break_positions html)) last)
        as [[_ ->]|[_ ->]]; repeat constructor.
Qed.

(** ** The sort of [reconstruct_file] *)

Section SortBy.
Variable A : Type.
Variable key : A -> nat.

Let le_key (a b : A) : Prop := key a <= key b.

Lemma insert_by_perm x : forall l, Permutation (insert_by key x l) (x :: l).
Proof.
  induction l as [|y l IH]; simpl; [apply Permutation_refl|].
  destruct (key x <=? key y); [apply Permutation_refl|].
  eapply perm_trans; [apply perm_skip, IH|apply perm_swap].
Qed.

Lemma sort_by_perm : forall l, Permutation (sort_by key l) l.
Proof.
  induction l as [|x l IH]; [apply Permutation_refl|].
  change (sort_by key (x :: l)) with (insert_by key x (sort_by key l)).
  eapply perm_trans; [apply insert_by_perm|now apply perm_skip].
Qed.

Lemma insert_by_sorted x : forall l,
  StronglySorted le_key l -> StronglySorted le_key (insert_by key x l).
Proof.
  induction 1 as [|y l Hs IH Hf]; simpl.
  - repeat constructor.
  - destruct (key x <=? key y) eqn:Hxy.
    + apply Nat.leb_le in Hxy. constructor; [now constructor|].
      constructor; [exact Hxy|].
      eapply Forall_impl; [|exact Hf]. unfold le_key. intros; lia.
    + apply Nat.leb_gt in Hxy. constructor; [exact IH|].
      eapply Permutation_Forall; [symmetry; apply insert_by_perm|].
      constructor; [unfold le_key; lia|exact Hf].
Qed.

Lemma sort_by_ordered : forall l, StronglySorted le_key (sort_by key l).
Proof.
  induction l as [|x l IH]; [constructor|].
  change (sort_by key (x :: l)) with (insert_by key x (sort_by key l)).
  now apply insert_by_sorted.
Qed.

Lemma same_key_same_item : forall l a b,
  NoDup (map key l) -> In a l -> In b l -> key a = key b -> a = b.
Proof.
  induction l as [|x l IH]; intros a b Hnd Ha Hb Hk; [contradiction|].
  simpl in Hnd. inversion Hnd as [|? ? Hnot Hnd']; subst.
  destruct Ha as [->|Ha], Hb as [->|Hb]; auto.
  - exfalso. apply Hnot. rewrite Hk. now apply in_map.
  - exfalso. apply Hnot. rewrite <- Hk. now apply in_map.
Qed.

(** Two lists in key order with the same items, no key twice, are the
    same list. *)
Lemma ordered_perm_unique : forall l1 l2,
  StronglySorted le_key l1 -> StronglySorted le_key l2 ->
  Permutation l1 l2 -> NoDup (map key l1) -> l1 = l2.
Proof.
  induction l1 as [|a l1 IH]; intros l2 S1 S2 P Hnd.
  - apply Permutation_nil in P. now subst.
  - destruct l2 as [|b l2];
      [symmetry in P; now apply Permutation_nil_cons in P|].
    inversion S1 as [|? ? S1' F1]; subst. inversion S2 as [|? ? S2' F2]; subst.
    rewrite Forall_forall in F1, F2.
    assert (Hb : In b (a :: l1))
      by (eapply Permutation_in; [symmetry; exact P|now left]).
    assert (Ha : In a (b :: l2))
      by (eapply Permutation_in; [exact P|now left]).
    assert (Hab : key a = key b).
    { unfold le_key in F1, F2.
      destruct Hb as [->|Hb]; [reflexivity|].
      destruct Ha as [->|Ha]; [reflexivity|].
      apply F1 in Hb. apply F2 in Ha. lia. }
    assert (a = b) by (apply (@same_key_same_item (a :: l1) a b Hnd); auto; now left).
    subst b. f_equal. apply IH; auto.
    + now apply Permutation_cons_inv in P.
    + simpl in Hnd. now inversion Hnd.
Qed.

(** The sort does not depend on the order the items come in, as long as no
    two have the same key. *)
Lemma sort_by_any_order l1 l2 :
  Permutation l1 l2 -> NoDup (map key l1) -> sort_by key l1 = sort_by key l2.
Proof.
  intros P Hnd. apply ordered_perm_unique.
  - apply sort_by_ordered.
  - apply sort_by_ordered.
  - eapply perm_trans; [apply sort_by_perm|].
    eapply perm_trans; [exact P|symmetry; apply sort_by_perm].
  - eapply Permutation_NoDup; [|exact Hnd].
    apply Permutation_map. symmetry. apply sort_by_perm.
Qed.
End SortBy.

(** X9.  The reconstruction does not depend on the order in which the
    record lists its chunks, as long as no two chunks have the same page
    number. *)
Theorem reconstruct_any_order cs cs' :
  Permutation cs cs' -> NoDup (map page cs) ->
  reconstruct cs = reconstruct cs'.
Proof.
  intros P Hnd. unfold reconstruct.
  now rewrite (@sort_by_any_order chunk page cs cs' P Hnd).
Qed.

Lemma reconstruct_any_order_witness :
  (Permutation [chunk_bbb; chunk_aaa] [chunk_aaa; chunk_bbb] /\
   NoDup (map page [chunk_bbb; chunk_aaa])) /\
  reconstruct [chunk_bbb; chunk_aaa] = reconstruct [chunk_aaa; chunk_bbb].
Proof.
  assert (P : Permutation [chunk_bbb; chunk_aaa] [chunk_aaa; chunk_bbb])
    by apply perm_swap.
  assert (Hnd : NoDup (map page [chunk_bbb; chunk_aaa])).
  { simpl. constructor; [simpl; intros [H|[]]; discriminate|].
    constructor; [simpl; tauto|constructor]. }
  split; [now split|exact (@reconstruct_any_order _ _ P Hnd)].
Defined.

(** ** Files *)




(** There is always one chunk more than there are breaks. *)
Lemma chunk_count html cs :
  split_html_by_regex html = Ok cs ->
  length cs = length (break_positions html) + 1.
Proof.
  intros H. destruct (break_positions html) as [|b breaks] eqn:E.
  - unfold split_html_by_regex in H. rewrite E in H. now injection H as <-.
  - assert (Hne : break_positions html <> []) by (rewrite E; discriminate).
    destruct (@split_with_breaks html Hne) as (chunks & last & Hloop & Hsplit).
    destruct (chunk_loop_pages _ _ _ _ Hloop) as (Hl & Hlen & _).
    pose proof (@text_after_last_break html Hne) as Hfinal. rewrite <- Hl in Hfinal.
    destruct (final_chunks_cases html (length (break_positions html)) last)
      as [[Hf _]|[_ Hfin]]; [contradiction|].
    rewrite Hfin, H in Hsplit. injection Hsplit as ->.
    rewrite length_app, Hlen, E. reflexivity.
Qed.


Section FileFacts.
Variables suffix stem lower : text -> text.
Variable json_dump : output_data -> text.
Variable json_load : text -> result output_data.
Variable print_exc : exn -> text.




End FileFacts.



(** ** The head excerpt *)

Lemma literal_length : forall (l : list char) s,
  matches (fold_right (fun c r => Cat (One (CLit c)) r) Eps l) s ->
  length s = length l.
Proof.
  induction l as [|c l IH]; simpl; intros s M.
  - now inversion M.
  - inversion M as [| | | |r1 r2 s1 s2 M1 M2| |]; subst.
    inversion M1; subst. simpl. f_equal. now apply IH.
Qed.

Lemma word_length w s : matches (word w) s -> length s = length (str w).
Proof. apply literal_length. Qed.

(** Lazy repetition stops at the first place where the continuation
    succeeds. *)
Lemma lazy_star_first R a : forall s (k : text -> option R) v,
  lazy_star a s k = Some v ->
  exists n, n <= length s /\ k (skipn n s) = Some v /\
    forall j, j < n -> k (skipn j s) = None.
Proof.
  induction s as [|x s IH]; simpl; intros k v H.
  - destruct (k []) eqn:Hk; [|discriminate]. injection H as ->.
    exists 0. repeat split; auto. intros j Hj. lia.
  - destruct (k (x :: s)) eqn:Hk.
    + injection H as ->. exists 0. repeat split; auto; [lia|].
      intros j Hj. lia.
    + destruct (cset_match a x); [|discriminate].
      destruct (IH _ _ H) as (n & Hn & Hv & Hfirst).
      exists (S n). repeat split; auto; [lia|].
      intros [|j] Hj; [exact Hk|]. apply Hfirst. lia.
Qed.

Lemma skipn_app_exact (a b : text) : skipn (length a) (a ++ b) = b.
Proof. now rewrite skipn_app, skipn_all, Nat.sub_diag. Qed.

(** The match of [head_pattern] at the head of a text: an opening
    [<head], and the first closing [</head>] after it. *)
Lemma head_match s n :
  match_at head_pattern s = Some n ->
  12 <= n /\ n <= length s /\
  matches (word "<head") (slice s 0 5) /\
  matches (word "</head>") (slice s (n - 7) n) /\
  forall j, 5 <= j -> j + 7 < n -> ~ matches (word "</head>") (slice s j (j + 7)).
Proof.
  unfold match_at, head_pattern. cbn [exec].
  destruct (exec (word "<head") s _) as [rest|] eqn:H; [|discriminate].
  intros [= <-].
  apply exec_sound in H as (a & s1 & -> & Ma & H).
  apply lazy_star_first in H as (n1 & Hn1 & H & Hfirst).
  apply exec_sound in H as (b & rest' & Eb & Mb & [= ->]).
  pose proof (@word_length _ _ Ma) as La. pose proof (@word_length _ _ Mb) as Lb.
  change (length (str "<head")) with 5 in La.
  change (length (str "</head>")) with 7 in Lb.
  assert (Es1 : s1 = firstn n1 s1 ++ b ++ rest)
    by (rewrite <- Eb; symmetry; apply firstn_skipn).
  assert (Ln : length (a ++ s1) - length rest = 5 + n1 + 7).
  { rewrite length_app. rewrite Es1 at 1.
    rewrite !length_app, length_firstn. lia. }
  rewrite Ln.
  assert (Ls : 5 + n1 + 7 <= length (a ++ s1)).
  { rewrite length_app. rewrite Es1 at 1.
    rewrite !length_app, length_firstn. lia. }
  repeat split; auto; try lia.
  - unfold slice. simpl skipn. rewrite <- La.
    now rewrite Nat.sub_0_r, firstn_app, Nat.sub_diag, firstn_all, app_nil_r.
  - unfold slice. replace (5 + n1 + 7 - 7) with (length a + n1) by lia.
    replace (5 + n1 + 7 - (length a + n1)) with 7 by lia.
    replace (length a + n1) with (n1 + length a) by lia.
    rewrite <- skipn_skipn, skipn_app_exact.
    rewrite Eb, <- Lb. now rewrite firstn_app, Nat.sub_diag, firstn_all, app_nil_r.
  - intros j Hj Hjn M.
    assert (Hlt : j - 5 < n1) by lia.
    specialize (Hfirst _ Hlt).
    unfold slice in M. replace (j + 7 - j) with 7 in M by lia.
    replace j with ((j - 5) + length a) in M by lia.
    rewrite <- skipn_skipn, skipn_app_exact in M.
    destruct (exec_complete M (skipn 7 (skipn (j - 5) s1))
                (fun rest => Some rest) eq_refl) as [v Hv].
    rewrite firstn_skipn in Hv. rewrite Hv in Hfirst. discriminate.
Qed.

(** [search] reports the leftmost offset at which the pattern matches. *)
Lemma search_from_leftmost r : forall s pos p m,
  search_from r pos s = Some (p, m) ->
  pos <= p /\ match_at r (skipn (p - pos) s) = Some (length m) /\
  m = firstn (length m) (skipn (p - pos) s) /\
  forall q, q < p - pos -> match_at r (skipn q s) = None.
Proof.
  assert (Here : forall s pos len,
    match_at r s = Some len ->
    pos <= pos /\
    match_at r (skipn (pos - pos) s) = Some (length (firstn len s)) /\
    firstn len s = firstn (length (firstn len s)) (skipn (pos - pos) s) /\
    forall q, q < pos - pos -> match_at r (skipn q s) = None).
  { intros s pos len Hm. destruct (match_at_Some _ _ Hm) as [Hlen _].
    rewrite Nat.sub_diag, length_firstn, Nat.min_l by assumption.
    repeat split; auto. intros q Hq. lia. }
  induction s as [|x s IH]; intros pos p m H; cbn [search_from] in H.
  - destruct (match_at r []) as [len|] eqn:Hm; [|discriminate].
    injection H as <- <-. now apply Here.
  - destruct (match_at r (x :: s)) as [len|] eqn:Hm.
    + injection H as <- <-. now apply Here.
    + destruct (IH _ _ _ H) as (Hp & Hat & Em & Hleft).
      replace (p - pos) with (S (p - S pos)) by lia. cbn [skipn].
      repeat split; auto; [lia|].
      intros [|q] Hq; [exact Hm|]. apply Hleft. lia.
Qed.

(** X13.  When [process_file] finds a head section, the excerpt it stores
    is copied from the text as it stands: it starts at the leftmost place
    where a head section can be found, opens with [<head] and closes with
    [</head>] whatever the case of their letters, and stops at the first
    [</head>] after the opening. *)
Theorem head_excerpt_is_first_head_section input_path html cs p m :
  search head_pattern html = Some (p, m) ->
  head_content (meta (record_of input_path html cs)) = m /\
  m = slice html p (p + length m) /\ p + length m <= length html /\
  matches (word "<head") (slice html p (p + 5)) /\
  matches (word "</head>") (slice html (p + length m - 7) (p + length m)) /\
  (forall j, p + 5 <= j -> j + 7 < p + length m ->
             ~ matches (word "</head>") (slice html j (j + 7))) /\
  (forall pre mid post,
     html = pre ++ mid ++ post -> matches head_pattern mid -> p <= length pre).
Proof.
  intros H. cbn [record_of meta head_content]. rewrite H.
  apply search_from_leftmost in H as (_ & Hat & Em & Hleft).
  rewrite Nat.sub_0_r in Hat, Em, Hleft.
  destruct (head_match _ Hat) as (H12 & Hlen & Mo & Mc & Hfirst).
  rewrite length_skipn in Hlen.
  assert (Shift : forall a b, slice (skipn p html) a b = slice html (p + a) (p + b)).
  { intros a b. unfold slice. rewrite skipn_skipn.
    now replace (p + b - (p + a)) with (b - a) by lia; rewrite Nat.add_comm. }
  rewrite Shift in Mo, Mc. rewrite Nat.add_0_r in Mo.
  replace (p + (length m - 7)) with (p + length m - 7) in Mc by lia.
  repeat split; auto; try lia.
  - unfold slice. now replace (p + length m - p) with (length m) by lia.
  - intros j Hj Hjm. specialize (Hfirst (j - p) ltac:(lia) ltac:(lia)).
    rewrite Shift in Hfirst.
    now replace (p + (j - p)) with j in Hfirst by lia;
      replace (p + (j - p + 7)) with (j + 7) in Hfirst by lia.
  - intros pre mid post E M.
    destruct (Nat.le_gt_cases p (length pre)) as [|Hlt]; [assumption|exfalso].
    specialize (Hleft _ Hlt). rewrite E, skipn_app_exact in Hleft.
    exact (@match_at_None head_pattern mid post Hleft M).
Qed.

Lemma head_excerpt_is_first_head_section_witness :
  search head_pattern with_head = Some (6, its_head) /\
  (head_content (meta (record_of (str "doc.html") with_head [])) = its_head /\
   its_head = slice with_head 6 (6 + length its_head) /\
   6 + length its_head <= length with_head /\
   matches (word "<head") (slice with_head 6 (6 + 5)) /\
   matches (word "</head>")
     (slice with_head (6 + length its_head - 7) (6 + length its_head)) /\
   (forall j, 6 + 5 <= j -> j + 7 < 6 + length its_head ->
              ~ matches (word "</head>") (slice with_head j (j + 7))) /\
   (forall pre mid post,
      with_head = pre ++ mid ++ post -> matches head_pattern mid ->
      6 <= length pre)).
Proof.
  assert (H : search head_pattern with_head = Some (6, its_head))
    by (vm_compute; reflexivity).
  split; [exact H|].
  exact (@head_excerpt_is_first_head_section (str "doc.html") with_head [] 6
           its_head H).
Defined.

(** ** Letter case *)

(** A character that is no letter, in any case, folds to itself and
    nothing else folds to it. *)
Lemma no_letter_alone x y :
  ((x < 65) \/ (90 < x /\ x < 97) \/
   (122 < x /\ x <> 304 /\ x <> 305 /\ x <> 383 /\ x <> 8490))%N ->
  same_letter x y -> y = x.
Proof.
  unfold same_letter, fold_case. intros Hx.
  repeat match goal with
  | |- context [(?a <=? ?b)%N] => destruct (N.leb_spec a b)
  | |- context [(?a =? ?b)%N] => destruct (N.eqb_spec a b)
  end; simpl; lia.
Qed.

Lemma space_no_letter x :
  is_space x = true ->
  ((x < 65) \/ (90 < x /\ x < 97) \/
   (122 < x /\ x <> 304 /\ x <> 305 /\ x <> 383 /\ x <> 8490))%N.
Proof.
  unfold is_space, mem, existsb.
  rewrite !orb_true_iff, !andb_true_iff, !N.leb_le, !N.eqb_eq. lia.
Qed.

Lemma member_no_letter x cs :
  forallb (fun c => (c <? 65)%N) cs = true -> mem x cs = true -> (x < 65)%N.
Proof.
  unfold mem. intros Hall Hin. apply existsb_exists in Hin as (c & Hc & E).
  apply N.eqb_eq in E. subst c. rewrite forallb_forall in Hall.
  now apply N.ltb_lt, Hall.
Qed.

Lemma same_letter_sym x y : same_letter x y -> same_letter y x.
Proof. unfold same_letter. congruence. Qed.

(** A test that is true of [x] and only of characters that are no letters
    gives the same answer on [y]. *)
Lemma same_test (f : char -> bool) x y :
  (forall z, f z = true ->
     ((z < 65) \/ (90 < z /\ z < 97) \/
      (122 < z /\ z <> 304 /\ z <> 305 /\ z <> 383 /\ z <> 8490))%N) ->
  same_letter x y -> f x = f y.
Proof.
  intros Hf H. destruct (f x) eqn:Hx, (f y) eqn:Hy; auto.
  - pose proof (Hf _ Hx) as Nx.
    rewrite (@no_letter_alone x y Nx H) in Hy. congruence.
  - pose proof (Hf _ Hy) as Ny.
    rewrite (@no_letter_alone y x Ny (same_letter_sym H)) in Hx. congruence.
Qed.

Lemma cset_match_same a x y :
  letter_free_set a = true -> same_letter x y ->
  cset_match a x = cset_match a y.
Proof.
  intros Ha H. destruct a as [c| |cs|cs|]; cbn [cset_match letter_free_set] in *.
  - unfold same_letter in H. now rewrite H.
  - apply same_test; [apply space_no_letter|assumption].
  - apply (@same_test (fun z => mem z cs)); [|assumption].
    intros z Hz. left. now apply (@member_no_letter z cs Ha).
  - f_equal. apply (@same_test (fun z => mem z cs)); [|assumption].
    intros z Hz. left. now apply (@member_no_letter z cs Ha).
  - reflexivity.
Qed.

Lemma same_letters_length s s' : same_letters s s' -> length s = length s'.
Proof. induction 1; simpl; auto. Qed.

Lemma same_letters_firstn n : forall s s',
  same_letters s s' -> same_letters (firstn n s) (firstn n s').
Proof.
  induction n as [|n IH]; intros s s' H; [constructor|].
  destruct H; simpl; constructor; auto. now apply IH.
Qed.

Lemma same_letters_removelast s s' :
  same_letters s s' -> same_letters (removelast s) (removelast s').
Proof.
  induction 1 as [|x y s s' Hxy H IH]; [constructor|].
  simpl. destruct H; [constructor|]. constructor; auto.
Qed.

Lemma same_letters_group1 m m' :
  same_letters m m' -> same_letters (group1 m) (group1 m').
Proof.
  intros H. unfold group1. apply same_letters_removelast.
  destruct H; [constructor|assumption].
Qed.

Section SameCase.
Variable a : cset.
Hypothesis a_free : letter_free_set a = true.

Lemma star_same : forall s s' k k',
  same_letters s s' ->
  (forall t t', same_letters t t' -> agree (k t) (k' t')) ->
  agree (star a s k) (star a s' k').
Proof.
  induction 1 as [|x y s s' Hxy H IH]; intros Hk; simpl.
  - apply Hk. constructor.
  - rewrite <- (@cset_match_same a x y a_free Hxy).
    assert (Hrest : agree (k (x :: s)) (k' (y :: s')))
      by (apply Hk; now constructor).
    destruct (cset_match a x); [|exact Hrest].
    specialize (IH Hk). unfold agree in IH.
    destruct (star a s k), (star a s' k'); try contradiction; auto.
Qed.

Lemma lazy_star_same : forall s s' k k',
  same_letters s s' ->
  (forall t t', same_letters t t' -> agree (k t) (k' t')) ->
  agree (lazy_star a s k) (lazy_star a s' k').
Proof.
  induction 1 as [|x y s s' Hxy H IH]; intros Hk; simpl.
  - pose proof (Hk [] [] ltac:(constructor)) as H0. unfold agree in *.
    destruct (k []), (k' []); try contradiction; auto.
  - assert (Hrest : agree (k (x :: s)) (k' (y :: s')))
      by (apply Hk; now constructor).
    unfold agree in Hrest.
    destruct (k (x :: s)), (k' (y :: s')); try contradiction; auto.
    rewrite <- (@cset_match_same a x y a_free Hxy).
    destruct (cset_match a x); [now apply IH|exact I].
Qed.
End SameCase.

(** The matcher takes no notice of letter case: on two texts that differ
    in case at most it fails on both or succeeds on both, at the same
    place. *)
Lemma exec_same r : letter_free r = true ->
  forall s s' k k',
  same_letters s s' ->
  (forall t t', same_letters t t' -> agree (k t) (k' t')) ->
  agree (exec r s k) (exec r s' k').
Proof.
  induction r as [|a|a|a|r1 IH1 r2 IH2|r1 IH1 r2 IH2];
    cbn [letter_free exec]; intros Hr s s' k k' Hs Hk.
  - now apply Hk.
  - destruct Hs as [|x y s s' Hxy Hs]; [exact I|].
    rewrite <- (@cset_match_same a x y Hr Hxy).
    destruct (cset_match a x); [now apply Hk|exact I].
  - now apply star_same.
  - now apply lazy_star_same.
  - apply andb_true_iff in Hr as [H1 H2].
    apply (IH1 H1); [assumption|]. intros t t' Ht. now apply (IH2 H2).
  - apply andb_true_iff in Hr as [H1 H2].
    pose proof (IH1 H1 s s' k k' Hs Hk) as Hl.
    pose proof (IH2 H2 s s' k k' Hs Hk) as Hrr. unfold agree in *.
    destruct (exec r1 s k), (exec r1 s' k'); try contradiction; auto.
Qed.

Lemma match_at_same r s s' :
  letter_free r = true -> same_letters s s' -> match_at r s = match_at r s'.
Proof.
  intros Hr Hs. unfold match_at.
  pose proof (@exec_same r Hr s s' (fun t => Some t) (fun t => Some t) Hs
                (fun t t' H => H)) as H.
  unfold agree in H.
  destruct (exec r s _), (exec r s' _); try contradiction; auto.
  now rewrite (@same_letters_length _ _ Hs), (@same_letters_length _ _ H).
Qed.

Lemma finditer_from_same r : letter_free r = true ->
  forall s s', same_letters s s' -> forall pos skip,
  same_matches (finditer_from r pos skip s) (finditer_from r pos skip s').
Proof.
  intros Hr. induction 1 as [|x y s s' Hxy Hs IH]; intros pos skip; simpl.
  - constructor.
  - destruct skip as [|n]; [|apply IH].
    rewrite <- (@match_at_same r (x :: s) (y :: s') Hr) by now constructor.
    destruct (match_at r (x :: s)) as [len|]; [|apply IH].
    constructor; [|apply IH]. split; [reflexivity|].
    apply same_letters_firstn. now constructor.
Qed.

Lemma search_from_same r : letter_free r = true ->
  forall s s', same_letters s s' -> forall pos,
  (search_from r pos s = None <-> search_from r pos s' = None).
Proof.
  intros Hr. induction 1 as [|x y s s' Hxy Hs IH]; intros pos; simpl.
  - reflexivity.
  - rewrite <- (@match_at_same r (x :: s) (y :: s') Hr) by now constructor.
    destruct (match_at r (x :: s)); [split; discriminate|apply IH].
Qed.

Lemma avoided_same tag tag' :
  same_letters tag tag' -> avoided tag = avoided tag'.
Proof.
  intros H. unfold avoided, search.
  pose proof (@search_from_same avoid_regex eq_refl tag tag' H 0) as Hs.
  destruct (search_from avoid_regex 0 tag), (search_from avoid_regex 0 tag');
    auto.
  - destruct Hs as [_ Hs]. discriminate (Hs eq_refl).
  - destruct Hs as [Hs _]. discriminate (Hs eq_refl).
Qed.

Lemma same_matches_filter l l' :
  same_matches l l' ->
  same_matches (filter (fun m => negb (avoided (group1 (snd m)))) l)
               (filter (fun m => negb (avoided (group1 (snd m)))) l').
Proof.
  induction 1 as [|m m' l l' [Hp Hm] H IH]; simpl; [constructor|].
  rewrite <- (@avoided_same _ _ (@same_letters_group1 _ _ Hm)).
  destruct (avoided (group1 (snd m))); simpl; [exact IH|].
  constructor; [now split|exact IH].
Qed.

(** X14.  The locator takes no notice of letter case: two texts that
    differ only in the case of their letters have their breaks at the same
    offsets, with tags that differ in case only. *)
Theorem breaks_ignore_case html html' :
  same_letters html html' ->
  same_matches (break_positions html) (break_positions html').
Proof.
  intros H. rewrite !break_positions_eq. unfold find_breaks.
  apply same_matches_filter.
  apply (@finditer_from_same tag_pattern eq_refl html html' H 0 0).
Qed.

Lemma breaks_ignore_case_witness :
  same_letters blank_before_break blank_before_break_upper /\
  same_matches (break_positions blank_before_break)
               (break_positions blank_before_break_upper).
Proof.
  assert (H : same_letters blank_before_break blank_before_break_upper)
    by (repeat constructor).
  split; [exact H|exact (@breaks_ignore_case _ _ H)].
Defined.

Lemma break_positions_same html html' :
  same_letters html html' ->
  same_matches (break_positions html) (break_positions html').
Proof.
  intros H. rewrite !break_positions_eq.
  apply same_matches_filter, finditer_from_same; [reflexivity|assumption].
Qed.

Lemma same_letters_skipn n : forall s s',
  same_letters s s' -> same_letters (skipn n s) (skipn n s').
Proof.
  induction n as [|n IH]; intros s s' H; [assumption|].
  destruct H; simpl; [constructor|now apply IH].
Qed.

Lemma same_letters_slice s s' a b :
  same_letters s s' -> same_letters (slice s a b) (slice s' a b).
Proof.
  intros H. now apply same_letters_firstn, same_letters_skipn.
Qed.

Lemma same_letters_nth s s' : same_letters s s' -> forall n,
  match nth_error s n, nth_error s' n with
  | Some x, Some y => same_letter x y
  | None, None => True
  | _, _ => False
  end.
Proof.
  induction 1 as [|x y s s' Hxy H IH]; intros [|n]; simpl; auto.
  apply IH.
Qed.

Lemma trailing_ws_same x y :
  same_letter x y -> is_trailing_ws x = is_trailing_ws y.
Proof.
  apply same_test. intros z Hz. left.
  now apply (@member_no_letter z [10; 13; 32; 9]%N eq_refl).
Qed.

(** The walk back goes as far on one text as on the other. *)
Lemma walk_back_same html html' last_pos :
  same_letters html html' -> forall temp,
  walk_back html last_pos temp = walk_back html' last_pos temp.
Proof.
  intros H. induction temp as [|t IH]; [reflexivity|].
  cbn [walk_back]. destruct (last_pos <? S t); [|reflexivity].
  pose proof (same_letters_nth H t) as Hn.
  destruct (nth_error html t), (nth_error html' t); try contradiction; auto.
  rewrite <- (trailing_ws_same Hn).
  destruct (is_trailing_ws c); [exact IH|reflexivity].
Qed.

Lemma chunk_loop_same html html' :
  same_letters html html' ->
  forall breaks breaks', same_matches breaks breaks' ->
  forall page_num last_pos,
  match chunk_loop html breaks page_num last_pos,
        chunk_loop html' breaks' page_num last_pos with
  | Ok (cs, l), Ok (cs', l') => l = l' /\ Forall2 same_chunk cs cs'
  | Raise _, Raise _ => True
  | _, _ => False
  end.
Proof.
  intros H. induction 1 as [|[bp bt] [bp' bt'] rest rest' [Hp Ht] Hr IH];
    intros page_num last_pos.
  - simpl. split; [reflexivity|constructor].
  - cbn [fst snd] in Hp, Ht. subst bp'. cbn [chunk_loop].
    rewrite <- (walk_back_same last_pos H bp).
    destruct (walk_back html last_pos bp) as [t|e]; cbn [bind]; [|exact I].
    specialize (IH (S page_num) bp).
    destruct (chunk_loop html rest (S page_num) bp) as [[cs l]|e],
             (chunk_loop html' rest' (S page_num) bp) as [[cs' l']|e'];
      cbn [bind]; try contradiction; auto.
    destruct IH as [-> IH]. split; [reflexivity|].
    constructor; [|exact IH].
    repeat split; cbn [page content has_break_before info]; auto.
    + now apply same_letters_slice.
    + now apply same_letters_firstn.
Qed.

Lemma final_chunks_same html html' n last :
  same_letters html html' ->
  Forall2 same_chunk (final_chunks html n last) (final_chunks html' n last).
Proof.
  intros H. unfold final_chunks, slice_from.
  pose proof (same_letters_skipn last H) as Hs.
  destruct Hs as [|x y t t' Hxy Hs]; constructor; [|constructor].
  repeat split; cbn [page content has_break_before info]; auto.
  now constructor.
Qed.

(** X15.  Splitting takes no notice of letter case: two texts that differ
    only in the case of their letters are cut at the same offsets, into as
    many chunks with the same page numbers, break marks and recorded
    positions, and with contents and break texts that differ in case
    only. *)
Theorem split_ignores_case html html' :
  same_letters html html' ->
  exists cs cs',
    split_html_by_regex html = Ok cs /\
    split_html_by_regex html' = Ok cs' /\
    Forall2 same_chunk cs cs'.
Proof.
  intros H. pose proof (break_positions_same H) as Hb.
  destruct (split_total html) as [cs Hcs].
  destruct (split_total html') as [cs' Hcs'].
  exists cs, cs'. split; [assumption|]. split; [assumption|].
  unfold split_html_by_regex, segment in Hcs, Hcs'.
  pose proof (chunk_loop_same H Hb 1 0) as Hloop.
  pose proof (Forall2_length Hb) as Hlen.
  destruct Hb as [|b b' bs bs' Hbb Hbs].
  - injection Hcs as <-. injection Hcs' as <-.
    constructor; [|constructor].
    repeat split; cbn [page content has_break_before info]; auto.
  - destruct (chunk_loop html (b :: bs) 1 0) as [[chunks l]|e];
      [|discriminate].
    destruct (chunk_loop html' (b' :: bs') 1 0) as [[chunks' l']|e'];
      [|discriminate].
    cbn [bind] in Hcs, Hcs'. injection Hcs as <-. injection Hcs' as <-.
    destruct Hloop as [<- Hloop]. cbn [length] in Hlen |- *.
    injection Hlen as Hlen. rewrite <- Hlen.
    apply Forall2_app; [assumption|now apply final_chunks_same].
Qed.

Lemma split_ignores_case_witness :
  same_letters blank_before_break blank_before_break_upper /\
  exists cs cs',
    split_html_by_regex blank_before_break = Ok cs /\
    split_html_by_regex blank_before_break_upper = Ok cs' /\
    Forall2 same_chunk cs cs'.
Proof.
  assert (H : same_letters blank_before_break blank_before_break_upper)
    by (repeat constructor).
  split; [exact H|exact (@split_ignores_case _ _ H)].
Defined.

(** ** A tag that must break *)

(** When the scan reports nothing, the pattern matches at no offset of the
    text. *)
Lemma finditer_from_nil r : forall s pos,
  finditer_from r pos 0 s = [] ->
  forall q, q < length s -> match_at r (skipn q s) = None.
Proof.
  induction s as [|x s IH]; simpl; intros pos H q Hq; [lia|].
  destruct (match_at r (x :: s)) as [len|] eqn:Hm; [discriminate|].
  destruct q as [|q]; [exact Hm|]. apply (IH _ H). lia.
Qed.

Lemma carries_inside pats pre mid post :
  carries pats mid -> carries pats (pre ++ mid ++ post).
Proof.
  intros (pat & Hin & Hocc). exists pat. split; [assumption|].
  now apply occurs_inside.
Qed.

(** X16.  A text that holds a tag matching the tag pattern, and in which no
    avoidance pattern occurs anywhere, is cut: at least one break is
    recorded and the result has at least two chunks. *)
Theorem trigger_without_avoidance_breaks html :
  occurs tag_pattern html ->
  ~ carries break_avoidance_patterns html ->
  break_positions html <> [] /\
  exists cs, split_html_by_regex html = Ok cs /\ 2 <= length cs.
Proof.
  intros (pre & mid & post & E & M) Hno.
  assert (Hne : break_positions html <> []).
  { rewrite break_positions_eq. unfold find_breaks, finditer.
    destruct (finditer_from tag_pattern 0 0 html) as [|[p m] rest] eqn:Hf.
    - exfalso.
      destruct (tag_pattern_shape M) as (inside & Em & _).
      assert (Hq : length pre < length html).
      { rewrite E, Em, !length_app. simpl. lia. }
      pose proof (finditer_from_nil _ _ _ Hf Hq) as Hnone.
      rewrite E, skipn_app_exact in Hnone.
      exact (@match_at_None tag_pattern mid post Hnone M).
    - assert (Hin : In (p, m) (finditer_from tag_pattern 0 0 html))
        by (rewrite Hf; now left).
      apply finditer_from_In in Hin as (_ & _ & Hm & Em).
      rewrite Nat.sub_0_r in Hm, Em.
      apply match_at_Some in Hm as [Hlen Mm]. rewrite <- Em in Mm.
      rewrite length_skipn in Hlen.
      destruct (tag_pattern_shape Mm) as (inside & Ei & _).
      cbn [filter snd]. rewrite Ei, group1_shape.
      destruct (avoided inside) eqn:Hav; [exfalso|discriminate].
      apply avoided_iff in Hav. apply Hno.
      assert (Ehtml : html = firstn p html
                             ++ ([lt_sign] ++ inside ++ [gt_sign])
                             ++ skipn (length m) (skipn p html)).
      { rewrite <- (firstn_skipn p html) at 1. f_equal.
        rewrite <- (firstn_skipn (length m) (skipn p html)) at 1. f_equal.
        now rewrite <- Em, Ei. }
      rewrite Ehtml, <- !app_assoc, (app_assoc (firstn p html)).
      now apply carries_inside. }
  split; [exact Hne|].
  destruct (split_total html) as [cs Hcs]. exists cs. split; [assumption|].
  rewrite (@chunk_count html cs Hcs).
  destruct (break_positions html); [contradiction|simpl; lia].
Qed.

Lemma trigger_without_avoidance_breaks_witness :
  (occurs tag_pattern blank_before_break /\
   ~ carries break_avoidance_patterns blank_before_break) /\
  (break_positions blank_before_break <> [] /\
   exists cs, split_html_by_regex blank_before_break = Ok cs /\ 2 <= length cs).
Proof.
  assert (H1 : occurs tag_pattern blank_before_break).
  { exists (str "x "), break_tag, (str "y"). split; [reflexivity|].
    assert (Hm : match_at tag_pattern break_tag = Some 28)
      by (vm_compute; reflexivity).
    apply match_at_Some in Hm as [_ Hm]. exact Hm. }
  assert (H2 : ~ carries break_avoidance_patterns blank_before_break).
  { intros Hc. apply avoided_iff in Hc. vm_compute in Hc. discriminate. }
  split; [now split|exact (@trigger_without_avoidance_breaks _ H1 H2)].
Defined.

End Extras.
